(** * Rap freestyle word contributor: rounds, words and votes

    A shallow embedding of [app.py]: the helper functions that sit between
    the page and the two MongoDB collections ([rap_words] and
    [generation_rounds]), and the properties they have.

    Modelling choices, all taken from the source:
    - a Python [str] is a list of code points, so [len] is [length];
    - a collection is the list of its documents in insertion (natural)
      order; [find] filters it, [find_one] and [update_one] act on the first
      match, [insert_one] appends a document under a new [ObjectId];
    - optional document keys ([votes], [generated_songs], ...) are [option]s;
    - [st.session_state.user_id] and the instant read by [datetime.now(UTC)]
      are arguments of the operation that reads them;
    - an operation is a function from the world to an outcome and a world:
      the outcome is a value or the Python exception that was raised. *)

From Stdlib Require Import List String Ascii ZArith NArith Arith Bool Lia.
From Stdlib Require Import Permutation Sorted.
Import ListNotations.

Set Implicit Arguments.

(** ** Python strings *)

Definition char := N.
Definition str := list char.

(** A literal of the source, as code points. *)
Definition lit (s : string) : str := map N_of_ascii (list_ascii_of_string s).

Definition len {A : Type} (l : list A) : nat := List.length l.

(** [sep.join(parts)] *)
Fixpoint join (sep : str) (parts : list str) : str :=
  match parts with
  | [] => []
  | [p] => p
  | p :: rest => p ++ sep ++ join sep rest
  end.

Definition str_eqb (a b : str) : bool :=
  if list_eq_dec N.eq_dec a b then true else false.

(** Binary comparison of two strings, code point by code point. *)
Fixpoint str_compare (a b : str) : comparison :=
  match a, b with
  | [], [] => Eq
  | [], _ :: _ => Lt
  | _ :: _, [] => Gt
  | x :: a', y :: b' =>
      match N.compare x y with
      | Eq => str_compare a' b'
      | c => c
      end
  end.

(** ** Constants *)

Definition BASE_PROMPT : str :=
  lit "Create a cool rap song with the following words that must be in it: ".
Definition CHAR_LIMIT : nat := 200.

(** ** Documents *)

Definition ObjectId := N.
Definition datetime := Z.

Module Vote.
Record t := mk { user_id : str; timestamp : datetime }.
End Vote.

Module Song.
Record t := mk { lyric : option str; audio_url : option str }.
End Song.

Module Word.
Record t := mk {
  _id : ObjectId;
  word : str;
  votes : option (list Vote.t);
  created_at : option datetime;
  created_by : option str;
  round_id : ObjectId
}.
End Word.

Module Round.
Record t := mk {
  _id : ObjectId;
  round_number : Z;
  status : str;
  created_at : datetime;
  total_chars : nat;
  votes : option (list Vote.t);
  generated_songs : option (list Song.t)
}.
End Round.

(** [doc.get('votes', [])] *)
Definition get_votes (v : option (list Vote.t)) : list Vote.t :=
  match v with
  | Some l => l
  | None => []
  end.

(** ** The world: both collections and the ObjectId generator *)

Record World := mkWorld {
  words_collection : list Word.t;
  rounds_collection : list Round.t;
  next_oid : ObjectId
}.

Inductive Exn :=
| AttributeError (msg : string).

Definition M (A : Type) : Type := World -> (Exn + A) * World.

Definition ret {A : Type} (a : A) : M A := fun w => (inr a, w).

Definition bind {A B : Type} (m : M A) (k : A -> M B) : M B :=
  fun w =>
    match m w with
    | (inr a, w') => k a w'
    | (inl e, w') => (inl e, w')
    end.

Definition raise {A : Type} (e : Exn) : M A := fun w => (inl e, w).

Declare Scope py_scope.
Delimit Scope py_scope with py.
Notation "x <- m ;; k" := (bind m (fun x => k))
  (at level 61, m at next level, right associativity) : py_scope.
Notation "m ;; k" := (bind m (fun _ => k))
  (at level 61, right associativity) : py_scope.
Open Scope py_scope.

(** ** Collection primitives *)

Section Collections.
Context {D : Type}.

(** [collection.find(query)]: the matching documents, in natural order. *)
Definition find_all (q : D -> bool) (c : list D) : list D := filter q c.

(** [collection.find_one(query)]: the first matching document, or [None]. *)
Definition find_first (q : D -> bool) (c : list D) : option D := find q c.

(** [collection.update_one(query, update)]: the update is applied to the
    first matching document and to no other; no match, no change. *)
Fixpoint update_first (q : D -> bool) (upd : D -> D) (c : list D) : list D :=
  match c with
  | [] => []
  | d :: c' => if q d then upd d :: c' else d :: update_first q upd c'
  end.
End Collections.

(** [x in xs] on strings *)
Definition str_in (x : str) (xs : list str) : bool := existsb (str_eqb x) xs.

(** The voters of a vote list: [[vote['user_id'] for vote in votes]]. *)
Definition voters (vs : list Vote.t) : list str := map Vote.user_id vs.

(** Update operators on documents. *)
Definition set_total_chars (n : nat) (r : Round.t) : Round.t :=
  Round.mk (Round._id r) (Round.round_number r) (Round.status r)
           (Round.created_at r) n (Round.votes r) (Round.generated_songs r).

Definition set_round_votes (vs : list Vote.t) (r : Round.t) : Round.t :=
  Round.mk (Round._id r) (Round.round_number r) (Round.status r)
           (Round.created_at r) (Round.total_chars r) (Some vs)
           (Round.generated_songs r).

(** [{'$push': {'votes': vote}}]: appends to the array, creating it when the
    key is absent. *)
Definition push_round_vote (v : Vote.t) (r : Round.t) : Round.t :=
  set_round_votes (get_votes (Round.votes r) ++ [v]) r.

Definition push_word_vote (v : Vote.t) (d : Word.t) : Word.t :=
  Word.mk (Word._id d) (Word.word d) (Some (get_votes (Word.votes d) ++ [v]))
          (Word.created_at d) (Word.created_by d) (Word.round_id d).

(** Queries. *)
Definition by_round_id (rid : ObjectId) (d : Word.t) : bool :=
  N.eqb (Word.round_id d) rid.
Definition word_by_id (wid : ObjectId) (d : Word.t) : bool :=
  N.eqb (Word._id d) wid.
Definition round_by_id (rid : ObjectId) (r : Round.t) : bool :=
  N.eqb (Round._id r) rid.
Definition by_status (s : str) (r : Round.t) : bool :=
  str_eqb (Round.status r) s.

(** The collections as operations on the world. *)
Definition words_find (q : Word.t -> bool) : M (list Word.t) :=
  fun w => (inr (find_all q (words_collection w)), w).

Definition words_find_one (q : Word.t -> bool) : M (option Word.t) :=
  fun w => (inr (find_first q (words_collection w)), w).

Definition words_update_one (q : Word.t -> bool) (upd : Word.t -> Word.t)
  : M unit :=
  fun w => (inr tt,
            mkWorld (update_first q upd (words_collection w))
                    (rounds_collection w) (next_oid w)).

(** [insert_one(doc)] on a document without [_id]: the driver draws a new
    [ObjectId], stores the document under it and writes the key back into
    the caller's dict, which is the value returned here. *)
Definition words_insert_one (doc : ObjectId -> Word.t) : M Word.t :=
  fun w =>
    let d := doc (next_oid w) in
    (inr d,
     mkWorld (words_collection w ++ [d]) (rounds_collection w)
             (N.succ (next_oid w))).

Definition rounds_find (q : Round.t -> bool) : M (list Round.t) :=
  fun w => (inr (find_all q (rounds_collection w)), w).

Definition rounds_find_one (q : Round.t -> bool) : M (option Round.t) :=
  fun w => (inr (find_first q (rounds_collection w)), w).

Definition rounds_update_one (q : Round.t -> bool) (upd : Round.t -> Round.t)
  : M unit :=
  fun w => (inr tt,
            mkWorld (words_collection w)
                    (update_first q upd (rounds_collection w)) (next_oid w)).

Definition rounds_insert_one (doc : ObjectId -> Round.t) : M Round.t :=
  fun w =>
    let d := doc (next_oid w) in
    (inr d,
     mkWorld (words_collection w) (rounds_collection w ++ [d])
             (N.succ (next_oid w))).

(** [rounds_collection.count_documents({})] *)
Definition rounds_count_documents : M nat :=
  fun w => (inr (len (rounds_collection w)), w).

(** ** Sorting *)

Section StableSort.
Variable A : Type.
Variable leb : A -> A -> bool.

(** [x] goes in front of the first element it is not above, so it stays
    ahead of the elements that compare equal to it. *)
Fixpoint insert_sorted (x : A) (l : list A) : list A :=
  match l with
  | [] => [x]
  | y :: l' => if leb x y then x :: l else y :: insert_sorted x l'
  end.

(** A stable sort, as [list.sort] is. *)
Definition stable_sort (l : list A) : list A :=
  fold_right insert_sorted [] l.
End StableSort.

(** Python's order on the key tuples [(a, b)]. *)
Definition key_leb (k1 k2 : Z * Z) : bool :=
  (fst k1 <? fst k2)%Z || ((fst k1 =? fst k2)%Z && (snd k1 <=? snd k2)%Z).

(** *** The store's order on a [votes] field, for [.sort([('votes', -1)])]

    MongoDB orders documents on an array field by one element of the
    array: the greatest one for a descending sort. Votes are embedded
    documents [{user_id, timestamp}], compared key by key in that order,
    strings by binary comparison. An absent field sorts as null, below
    every embedded document, and an empty array sorts below null. *)
Inductive SortKey :=
| KEmptyArray
| KNull
| KObject (v : Vote.t).

Definition vote_compare (a b : Vote.t) : comparison :=
  match str_compare (Vote.user_id a) (Vote.user_id b) with
  | Eq => Z.compare (Vote.timestamp a) (Vote.timestamp b)
  | c => c
  end.

Definition vote_max (a b : Vote.t) : Vote.t :=
  match vote_compare a b with
  | Lt => b
  | _ => a
  end.

Definition votes_sort_key_desc (f : option (list Vote.t)) : SortKey :=
  match f with
  | None => KNull
  | Some [] => KEmptyArray
  | Some (v :: vs) => KObject (fold_left vote_max vs v)
  end.

Definition sort_key_leb (k1 k2 : SortKey) : bool :=
  match k1, k2 with
  | KEmptyArray, _ => true
  | KNull, KEmptyArray => false
  | KNull, _ => true
  | KObject _, KEmptyArray => false
  | KObject _, KNull => false
  | KObject a, KObject b =>
      match vote_compare a b with
      | Gt => false
      | _ => true
      end
  end.

(** Descending on [votes]; documents with equal keys, whose order the store
    leaves open, are kept in natural order. *)
Definition sort_votes_desc (ws : list Word.t) : list Word.t :=
  stable_sort
    (fun a b => sort_key_leb (votes_sort_key_desc (Word.votes b))
                             (votes_sort_key_desc (Word.votes a)))
    ws.

(** ** The functions of [app.py] *)

(** [calculate_prompt_length(words)]. The function reads one key of each
    dict, [word['word']]; the argument here is the list of those values. *)
Definition calculate_prompt_length (words : list str) : nat :=
  match words with
  | [] => len BASE_PROMPT
  | _ =>
      let words_text := join (lit " ") words in
      let full_prompt := BASE_PROMPT ++ words_text in
      len full_prompt
  end.

Definition msg_exceed : string :=
  "Adding this word would exceed the character limit".
Definition msg_added : string := "Word added successfully".

(** [add_word(word, current_round)] *)
Definition add_word (user_id : str) (now : datetime)
                    (word : str) (current_round : Round.t)
  : M (bool * string) :=
  current_words <- words_find (by_round_id (Round._id current_round)) ;;
  let new_words := map Word.word current_words ++ [word] in
  let new_total_length := calculate_prompt_length new_words in
  if CHAR_LIMIT <? new_total_length then
    ret (false, msg_exceed)
  else
    let word_doc := fun oid =>
      Word.mk oid word (Some []) (Some now) (Some user_id)
              (Round._id current_round) in
    words_insert_one word_doc ;;
    rounds_update_one (round_by_id (Round._id current_round))
                      (set_total_chars new_total_length) ;;
    ret (true, msg_added).

(** [vote_for_song(round_id)] *)
Definition vote_for_song (user_id : str) (now : datetime) (round_id : ObjectId)
  : M bool :=
  found <- rounds_find_one (round_by_id round_id) ;;
  match found with
  | None => ret false
  | Some round =>
      match Round.generated_songs round with
      | None => ret false
      | Some _ =>
          round <- match Round.votes round with
                   | None =>
                       rounds_update_one (round_by_id round_id)
                                         (set_round_votes []) ;;
                       ret (set_round_votes [] round)
                   | Some _ => ret round
                   end ;;
          if negb (str_in user_id (voters (get_votes (Round.votes round))))
          then
            let vote := Vote.mk user_id now in
            rounds_update_one (round_by_id round_id) (push_round_vote vote) ;;
            ret true
          else ret false
      end
  end.

(** [vote_for_word(word_id)]. [find_one] gives [None] for an unknown id, and
    [None.get] raises. *)
Definition vote_for_word (user_id : str) (now : datetime) (word_id : ObjectId)
  : M unit :=
  found <- words_find_one (word_by_id word_id) ;;
  match found with
  | None => raise (AttributeError "'NoneType' object has no attribute 'get'")
  | Some word =>
      if negb (str_in user_id (voters (get_votes (Word.votes word)))) then
        let vote := Vote.mk user_id now in
        words_update_one (word_by_id word_id) (push_word_vote vote)
      else ret tt
  end.

(** [get_current_round_words(current_round)] *)
Definition get_current_round_words (current_round : Round.t)
  : M (list Word.t) :=
  ws <- words_find (by_round_id (Round._id current_round)) ;;
  ret (sort_votes_desc ws).

(** [get_current_round()] *)
Definition get_current_round (now : datetime) : M Round.t :=
  found <- rounds_find_one (by_status (lit "active")) ;;
  match found with
  | Some current_round => ret current_round
  | None =>
      n <- rounds_count_documents ;;
      let current_round := fun oid =>
        Round.mk oid (Z.of_nat n + 1) (lit "active") now (len BASE_PROMPT)
                 None None in
      rounds_insert_one current_round
  end.

(** A round of [get_previous_rounds]: the document and its added
    [vote_count] key. *)
Module Previous.
Record t := mk { round : Round.t; vote_count : nat }.
End Previous.

Definition previous_key (x : Previous.t) : Z * Z :=
  (- Z.of_nat (Previous.vote_count x),
   - Round.round_number (Previous.round x))%Z.

(** [get_previous_rounds()] *)
Definition get_previous_rounds : M (list Previous.t) :=
  previous_rounds <- rounds_find (by_status (lit "completed")) ;;
  let previous_rounds :=
    map (fun round =>
           Previous.mk round (len (get_votes (Round.votes round))))
        previous_rounds in
  ret (stable_sort (fun x y => key_leb (previous_key x) (previous_key y))
                   previous_rounds).

(** [get_current_prompt(current_round)] *)
Definition get_current_prompt (current_round : Round.t) : M str :=
  words <- get_current_round_words current_round ;;
  match words with
  | [] => ret BASE_PROMPT
  | _ =>
      let words_text := join (lit " ") (map Word.word words) in
      ret (BASE_PROMPT ++ words_text)
  end.

(** ** Running operations *)

Definition run {A : Type} (m : M A) (w : World) : (Exn + A) * World := m w.

Definition empty_world : World := mkWorld [] [] 1%N.

(** The world an operation leaves behind, whatever its outcome. *)
Definition exec {A : Type} (m : M A) (w : World) : World := snd (run m w).

(** The same operation called once per instant of a list, in sequence:
    the outcomes in call order and the last world. *)
Fixpoint call_each {A : Type} (op : datetime -> M A) (nows : list datetime)
                   (w : World) : list (Exn + A) * World :=
  match nows with
  | [] => ([], w)
  | now :: rest =>
      let '(r, w1) := run (op now) w in
      let '(rs, w2) := call_each op rest w1 in
      (r :: rs, w2)
  end.

(** What one user can do to the store. *)
Inductive Op :=
| GetCurrentRound (now : datetime)
| AddWord (user_id : str) (now : datetime) (word : str)
          (current_round : Round.t)
| VoteForWord (user_id : str) (now : datetime) (word_id : ObjectId)
| VoteForSong (user_id : str) (now : datetime) (round_id : ObjectId)
| GetPreviousRounds
| GetCurrentRoundWords (current_round : Round.t)
| GetCurrentPrompt (current_round : Round.t).

Definition step (o : Op) (w : World) : World :=
  match o with
  | GetCurrentRound now => exec (get_current_round now) w
  | AddWord u now word r => exec (add_word u now word r) w
  | VoteForWord u now wid => exec (vote_for_word u now wid) w
  | VoteForSong u now rid => exec (vote_for_song u now rid) w
  | GetPreviousRounds => exec get_previous_rounds w
  | GetCurrentRoundWords r => exec (get_current_round_words r) w
  | GetCurrentPrompt r => exec (get_current_prompt r) w
  end.

(** Worlds reached from [w0] by operations run one after the other. *)
Inductive reachable (w0 : World) : World -> Prop :=
| reach_here : reachable w0 w0
| reach_step : forall w o, reachable w0 w -> reachable w0 (step o w).

Definition active_rounds (w : World) : list Round.t :=
  find_all (by_status (lit "active")) (rounds_collection w).

Definition at_most_one_active (w : World) : Prop :=
  len (active_rounds w) <= 1.

(** The words of a round, in natural order, and their texts. *)
Definition round_words (rid : ObjectId) (w : World) : list Word.t :=
  find_all (by_round_id rid) (words_collection w).

Definition round_texts (rid : ObjectId) (w : World) : list str :=
  map Word.word (round_words rid w).

(** The entries of one user in a vote list. *)
Definition votes_of (user_id : str) (vs : list Vote.t) : list Vote.t :=
  filter (fun v => str_eqb (Vote.user_id v) user_id) vs.

(** The user is among the voters of the round stored under the id. *)
Definition has_voted (user_id : str) (round_id : ObjectId) (w : World)
  : Prop :=
  exists round,
    find_first (round_by_id round_id) (rounds_collection w) = Some round /\
    str_in user_id (voters (get_votes (Round.votes round))) = true.

(** No word has two votes of one user. *)
Definition words_voted_once (w : World) : Prop :=
  forall d, In d (words_collection w) ->
            NoDup (voters (get_votes (Word.votes d))).

(** A completed round with its [vote_count], and the comparison that the
    sort key of [get_previous_rounds] induces. *)
Definition annotate (r : Round.t) : Previous.t :=
  Previous.mk r (len (get_votes (Round.votes r))).

Definition previous_leb (x y : Previous.t) : bool :=
  key_leb (previous_key x) (previous_key y).

(** The order [get_previous_rounds] promises: more votes first, and among
    equal votes the higher round number first. *)
Definition ranks_before (x y : Previous.t) : Prop :=
  Previous.vote_count x > Previous.vote_count y \/
  (Previous.vote_count x = Previous.vote_count y /\
   (Round.round_number (Previous.round x)
    >= Round.round_number (Previous.round y))%Z).

(** Ordering by the number of votes, descending: what the docstring of
    [get_current_round_words] announces. *)
Definition by_vote_count_desc (a b : Word.t) : Prop :=
  len (get_votes (Word.votes a)) >= len (get_votes (Word.votes b)).

(** The prompt length as the specification words it: the base prompt, one
    space, then the words separated by single spaces. *)
Definition spec_prompt_length (words : list str) : nat :=
  match words with
  | [] => len BASE_PROMPT
  | _ => len (BASE_PROMPT ++ lit " " ++ join (lit " ") words)
  end.

(** The summed lengths of the words of a list. *)
Definition total_len (words : list str) : nat :=
  fold_right (fun w n => len w + n) 0 words.

(** ** Concrete sessions and worlds *)

Definition hex_user (s : string) : str := lit s.

(** The first page load on an empty store: round #1 is created. *)
Definition first_round : Round.t :=
  Round.mk 1%N 1%Z (lit "active") 1000%Z 68 None None.

Definition opened_world : World := exec (get_current_round 1000%Z) empty_world.

(** A word that fills the budget to 201 characters: 68 + 133. *)
Definition long_word : str := repeat 120%N 133.

(** Round #1 after one user submitted "fire", and the stored document. *)
Definition fire_world : World :=
  step (AddWord (hex_user "a00000000000000000000001") 1010%Z (lit "fire")
                first_round) opened_world.

Definition fire_doc : Word.t :=
  Word.mk 2%N (lit "fire") (Some []) (Some 1010%Z)
          (Some (hex_user "a00000000000000000000001")) 1%N.

(** Two words in round #1; "fire" gets two votes, "gold" gets five. The
    two voters of "fire" have the greater session ids. *)
Definition fire_gold_ops : list Op :=
  [ AddWord (hex_user "a00000000000000000000001") 1010%Z (lit "fire")
            first_round;
    AddWord (hex_user "a00000000000000000000001") 1011%Z (lit "gold")
            first_round;
    VoteForWord (hex_user "f00000000000000000000001") 1020%Z 2%N;
    VoteForWord (hex_user "f00000000000000000000002") 1021%Z 2%N;
    VoteForWord (hex_user "a00000000000000000000001") 1022%Z 3%N;
    VoteForWord (hex_user "a00000000000000000000002") 1023%Z 3%N;
    VoteForWord (hex_user "a00000000000000000000003") 1024%Z 3%N;
    VoteForWord (hex_user "a00000000000000000000004") 1025%Z 3%N;
    VoteForWord (hex_user "a00000000000000000000005") 1026%Z 3%N ].

Definition fire_gold_world : World :=
  fold_left (fun w o => step o w) fire_gold_ops opened_world.

(** Three completed rounds with 3, 1 and 3 votes, and the active round. *)
Definition sessions : list str :=
  [ hex_user "a00000000000000000000001";
    hex_user "a00000000000000000000002";
    hex_user "a00000000000000000000003";
    hex_user "a00000000000000000000004";
    hex_user "a00000000000000000000005" ].

(** One vote each of the first [n] sessions. *)
Definition some_votes (n : nat) : list Vote.t :=
  map (fun u => Vote.mk u 1500%Z) (firstn n sessions).

Definition finished_round (id : ObjectId) (number : Z) (nvotes : nat)
  : Round.t :=
  Round.mk id number (lit "completed") 1000%Z 100 (Some (some_votes nvotes))
           (Some [Song.mk None None; Song.mk None None]).

Definition ranking_world : World :=
  mkWorld []
          [ finished_round 1%N 1%Z 3;
            finished_round 2%N 2%Z 1;
            finished_round 3%N 3%Z 3;
            Round.mk 4%N 4%Z (lit "active") 1000%Z 68 None None ]
          5%N.

(** A completed round with its two songs and no [votes] key yet. *)
Definition unvoted_round : Round.t :=
  Round.mk 1%N 1%Z (lit "completed") 1000%Z 100 None
           (Some [Song.mk None None; Song.mk None None]).

Definition unvoted_world : World := mkWorld [] [unvoted_round] 2%N.

(** ** Invariants of the store *)

(** The prompt of every round, computed from the words stored for it, is
    within the ceiling. *)
Definition prompt_within_limit (w : World) : Prop :=
  forall rid, calculate_prompt_length (round_texts rid w) <= CHAR_LIMIT.

(** The numbers 1, 2, ..., n. *)
Definition numbering (n : nat) : list Z :=
  map (fun i => (Z.of_nat i + 1)%Z) (seq 0 n).

(** The stored rounds carry the numbers 1, 2, ... in stored order. *)
Definition rounds_numbered (w : World) : Prop :=
  map Round.round_number (rounds_collection w)
  = numbering (len (rounds_collection w)).

(** No round has two votes of one user. *)
Definition rounds_voted_once (w : World) : Prop :=
  forall r, In r (rounds_collection w) ->
            NoDup (voters (get_votes (Round.votes r))).

(** Ids are unique in each collection and below the generator; every word
    belongs to a stored round; every round's [total_chars] is the prompt
    length computed from its stored words. *)
Record store_ok (w : World) : Prop := mk_store_ok {
  round_ids_unique : NoDup (map Round._id (rounds_collection w));
  word_ids_unique : NoDup (map Word._id (words_collection w));
  round_ids_used :
    forall r, In r (rounds_collection w) -> (Round._id r < next_oid w)%N;
  word_ids_used :
    forall d, In d (words_collection w) -> (Word._id d < next_oid w)%N;
  words_have_round :
    forall d, In d (words_collection w) ->
              exists r, In r (rounds_collection w) /\
                        Round._id r = Word.round_id d;
  total_chars_cached :
    forall r, In r (rounds_collection w) ->
              Round.total_chars r
              = calculate_prompt_length (round_texts (Round._id r) w)
}.

(** [add_word] is given a round of the store, as the page does, which
    passes the round [get_current_round] returned. *)
Definition op_ok (o : Op) (w : World) : Prop :=
  match o with
  | AddWord _ _ _ r =>
      exists r0, In r0 (rounds_collection w) /\ Round._id r0 = Round._id r
  | _ => True
  end.

Inductive reachable_ok (w0 : World) : World -> Prop :=
| reach_ok_here : reachable_ok w0 w0
| reach_ok_step : forall w o,
    reachable_ok w0 w -> op_ok o w -> reachable_ok w0 (step o w).

(** The key the store sorts a word on, and the descending order on it. *)
Definition word_key (d : Word.t) : SortKey :=
  votes_sort_key_desc (Word.votes d).

Definition key_desc (a b : Word.t) : Prop :=
  sort_key_leb (word_key b) (word_key a) = true.

(** What one operation can do to the world: nothing; a new active round;
    a new word with the round's [total_chars] set; a vote appended to a
    word; a vote appended to a round. *)
Inductive step_effect (o : Op) (w : World) : World -> Prop :=
| eff_none : step_effect o w w
| eff_new_round (now : datetime) :
    o = GetCurrentRound now ->
    find_first (by_status (lit "active")) (rounds_collection w) = None ->
    step_effect o w
      (mkWorld (words_collection w)
               (rounds_collection w ++
                  [Round.mk (next_oid w)
                            (Z.of_nat (len (rounds_collection w)) + 1)
                            (lit "active") now (len BASE_PROMPT) None None])
               (N.succ (next_oid w)))
| eff_new_word (u : str) (now : datetime) (word : str) (r : Round.t) :
    o = AddWord u now word r ->
    calculate_prompt_length (round_texts (Round._id r) w ++ [word])
    <= CHAR_LIMIT ->
    step_effect o w
      (mkWorld (words_collection w ++
                  [Word.mk (next_oid w) word (Some []) (Some now) (Some u)
                           (Round._id r)])
               (update_first (round_by_id (Round._id r))
                  (set_total_chars
                     (calculate_prompt_length
                        (round_texts (Round._id r) w ++ [word])))
                  (rounds_collection w))
               (N.succ (next_oid w)))
| eff_word_vote (u : str) (now : datetime) (wid : ObjectId) (word : Word.t) :
    o = VoteForWord u now wid ->
    find_first (word_by_id wid) (words_collection w) = Some word ->
    str_in u (voters (get_votes (Word.votes word))) = false ->
    step_effect o w
      (mkWorld (update_first (word_by_id wid)
                             (push_word_vote (Vote.mk u now))
                             (words_collection w))
               (rounds_collection w) (next_oid w))
| eff_round_vote (u : str) (now : datetime) (rid : ObjectId)
                 (round : Round.t) :
    o = VoteForSong u now rid ->
    find_first (round_by_id rid) (rounds_collection w) = Some round ->
    Round.generated_songs round <> None ->
    str_in u (voters (get_votes (Round.votes round))) = false ->
    step_effect o w
      (mkWorld (words_collection w)
               (update_first (round_by_id rid)
                  (set_round_votes
                     (get_votes (Round.votes round) ++ [Vote.mk u now]))
                  (rounds_collection w))
               (next_oid w)).

(** Three words of round #1: "ice" and "fire" without votes, "gold" with
    one vote. *)
Definition ice_doc : Word.t :=
  Word.mk 2%N (lit "ice") (Some []) (Some 1010%Z)
          (Some (hex_user "a00000000000000000000001")) 1%N.

Definition fire_doc3 : Word.t :=
  Word.mk 3%N (lit "fire") (Some []) (Some 1011%Z)
          (Some (hex_user "a00000000000000000000001")) 1%N.

Definition gold_doc : Word.t :=
  Word.mk 4%N (lit "gold")
          (Some [Vote.mk (hex_user "f00000000000000000000001") 1020%Z])
          (Some 1012%Z) (Some (hex_user "a00000000000000000000002")) 1%N.

Definition listing_world : World :=
  mkWorld [ice_doc; fire_doc3; gold_doc] [set_total_chars 81 first_round]
          5%N.

(** ** The page

    The script part of [app.py], run top to bottom on every page load and
    on every user action. The widget calls that display something are
    recorded in call order; layout calls ([st.columns], [st.form] and the
    [with] blocks) display nothing of their own and are left out. What the
    input widgets return in a run is an argument: the text of the input
    box, whether the form was submitted, and for each button key whether
    that button was pressed. [st.rerun()] ends the run. The session's
    [user_id] is set when the session starts and is an argument too. *)

From Stdlib Require Import DecimalString.

Inductive Key :=
| WordKey (_id : ObjectId)      (* key=str(word['_id']) *)
| RoundKey (_id : ObjectId).    (* key=f"vote_{round['_id']}" *)

Record Inputs := mkInputs {
  text_input : str;
  form_submit_button : bool;
  button : Key -> bool
}.

(** The instants read by the calls of a run that read the clock. *)
Record Times := mkTimes {
  t_round : datetime;
  t_word : datetime;
  t_word_vote : datetime;
  t_song_vote : datetime
}.

Inductive Widget :=
| st_title (body : str)
| st_text_area (label value : str)
| st_metric (label : str) (value : Z)
| st_progress (num den : nat)
| st_subheader (body : str)
| st_text_input (label : str)
| st_form_submit_button (label : str)
| st_success (body : str)
| st_error (body : str)
| st_write (body : str)
| st_button (label : str) (key : Key)
| st_markdown (body : str)
| st_audio (url : str)
| st_expander (label : str).

Inductive Halt :=
| Rerun
| Raised (e : Exn)
| IndexError.

Record Screen := mkScreen { world : World; shown : list Widget }.

Definition UI (A : Type) : Type := Screen -> (Halt + A) * Screen.

Definition ui_ret {A : Type} (a : A) : UI A := fun s => (inr a, s).

Definition ui_bind {A B : Type} (m : UI A) (k : A -> UI B) : UI B :=
  fun s =>
    match m s with
    | (inr a, s') => k a s'
    | (inl h, s') => (inl h, s')
    end.

Definition halt {A : Type} (h : Halt) : UI A := fun s => (inl h, s).

(** A function of the application, run on the store. *)
Definition lift {A : Type} (m : M A) : UI A :=
  fun s =>
    match m (world s) with
    | (inr a, w') => (inr a, mkScreen w' (shown s))
    | (inl e, w') => (inl (Raised e), mkScreen w' (shown s))
    end.

Definition show (wd : Widget) : UI unit :=
  fun s => (inr tt, mkScreen (world s) (shown s ++ [wd])).

Declare Scope ui_scope.
Delimit Scope ui_scope with ui.
Notation "x <- m ;; k" := (ui_bind m (fun x => k))
  (at level 61, m at next level, right associativity) : ui_scope.
Notation "m ;; k" := (ui_bind m (fun _ => k))
  (at level 61, right associativity) : ui_scope.
Open Scope ui_scope.

Fixpoint for_each {A : Type} (xs : list A) (body : A -> UI unit) : UI unit :=
  match xs with
  | [] => ui_ret tt
  | x :: rest => body x ;; for_each rest body
  end.

(** [songs[i]] *)
Definition song_at (songs : list Song.t) (i : nat) : UI Song.t :=
  match nth_error songs i with
  | Some song => ui_ret song
  | None => halt IndexError
  end.

(** Truth value of a string: the empty string is false. *)
Definition nonempty (s : str) : bool :=
  match s with
  | [] => false
  | _ :: _ => true
  end.

Definition str_of_nat (n : nat) : str :=
  lit (NilZero.string_of_uint (Nat.to_uint n)).

Definition str_of_Z (z : Z) : str :=
  lit (NilZero.string_of_int (Z.to_int z)).

(** [s.replace('\n', '<br>')] *)
Definition br_lines (s : str) : str :=
  flat_map (fun c => if (c =? 10)%N then lit "<br>" else [c]) s.

Definition MUSICAL_NOTE : char := 127925%N.
Definition THUMBS_UP : char := 128077%N.
Definition CHECK_MARK : char := 9989%N.

(** The body of [for word in words]. *)
Definition word_row (user_id : str) (t : Times) (inp : Inputs)
                    (word : Word.t) : UI unit :=
  show (st_write (Word.word word)) ;;
  let vote_count := len (get_votes (Word.votes word)) in
  show (st_write (lit "Votes: " ++ str_of_nat vote_count)) ;;
  let user_voted :=
    str_in user_id (voters (get_votes (Word.votes word))) in
  (if user_voted then show (st_write (CHECK_MARK :: lit " Voted"))
   else
     show (st_button (THUMBS_UP :: lit " Vote") (WordKey (Word._id word))) ;;
     if button inp (WordKey (Word._id word)) then
       lift (vote_for_word user_id (t_word_vote t) (Word._id word)) ;;
       halt Rerun
     else ui_ret tt) ;;
  match Word.created_by word with
  | Some creator =>
      if str_eqb creator user_id then show (st_write (lit "(Your word)"))
      else ui_ret tt
  | None => ui_ret tt
  end.

(** One song of a round: heading, then lyrics and audio when the key is
    present with a non-empty value. The list is indexed after the heading
    is displayed. *)
Definition song_block (heading : string) (songs : list Song.t) (i : nat)
  : UI unit :=
  show (st_markdown (lit heading)) ;;
  song <- song_at songs i ;;
  match Song.lyric song with
  | Some (c :: rest) =>
      show (st_markdown (lit "#### Lyrics")) ;;
      show (st_markdown (br_lines (c :: rest)))
  | _ => ui_ret tt
  end ;;
  match Song.audio_url song with
  | Some (c :: rest) => show (st_audio (c :: rest))
  | _ => ui_ret tt
  end.

(** The songs of a previous round and the vote button under them: the part
    under [if 'generated_songs' in round]. *)
Definition round_songs (user_id : str) (t : Times) (inp : Inputs)
                       (r : Round.t) (user_voted : bool) : UI unit :=
  match Round.generated_songs r with
  | None => ui_ret tt
  | Some songs =>
      song_block "### Song 1" songs 0 ;;
      song_block "### Song 2" songs 1 ;;
      if negb user_voted then
        show (st_button (THUMBS_UP :: lit " Vote for this round")
                        (RoundKey (Round._id r))) ;;
        if button inp (RoundKey (Round._id r)) then
          voted <- lift (vote_for_song user_id (t_song_vote t)
                                       (Round._id r)) ;;
          if (voted : bool) then halt Rerun else ui_ret tt
        else ui_ret tt
      else show (st_write (CHECK_MARK :: lit " You voted for this round"))
  end.

(** The body of [for round in previous_rounds]. *)
Definition round_panel (user_id : str) (t : Times) (inp : Inputs)
                       (round : Previous.t) : UI unit :=
  let r := Previous.round round in
  let user_voted :=
    str_in user_id (voters (get_votes (Round.votes r))) in
  show (st_expander
          (lit "Round #" ++ str_of_Z (Round.round_number r) ++ lit " - "
           ++ str_of_nat (Previous.vote_count round) ++ lit " votes")) ;;
  round_words <- lift (words_find (by_round_id (Round._id r))) ;;
  let words_list := sort_votes_desc round_words in
  match words_list with
  | [] => show (st_write (lit "No words were added in this round"))
  | _ :: _ =>
      let words_text := join (lit " ") (map Word.word words_list) in
      let full_prompt := BASE_PROMPT ++ words_text in
      show (st_text_area (lit "Final Prompt") full_prompt) ;;
      show (st_markdown (lit "### Words Used")) ;;
      for_each words_list
        (fun word =>
           show (st_write
                   (Word.word word ++ lit " - "
                    ++ str_of_nat (len (get_votes (Word.votes word)))
                    ++ lit " votes"))) ;;
      round_songs user_id t inp r user_voted
  end.

(** The form under [if chars_remaining > 0]. *)
Definition add_word_form (user_id : str) (t : Times) (inp : Inputs)
                         (current_round : Round.t) : UI unit :=
  show (st_subheader (lit "Add New Word")) ;;
  show (st_text_input (lit "Enter a word:")) ;;
  let new_word := text_input inp in
  show (st_form_submit_button (lit "Add Word")) ;;
  let submitted := form_submit_button inp in
  if submitted && nonempty new_word then
    result <- lift (add_word user_id (t_word t) new_word current_round) ;;
    let '(success, message) := result in
    if (success : bool) then
      show (st_success (lit "Added: " ++ new_word)) ;;
      halt Rerun
    else show (st_error (lit message))
  else ui_ret tt.

(** The script below the progress bar. *)
Definition page_rest (user_id : str) (t : Times) (inp : Inputs)
                     (current_round : Round.t) (chars_remaining : Z)
  : UI unit :=
  (if (0 <? chars_remaining)%Z
   then add_word_form user_id t inp current_round
   else ui_ret tt) ;;
  show (st_subheader (lit "Current Round Words")) ;;
  words <- lift (get_current_round_words current_round) ;;
  for_each words (word_row user_id t inp) ;;
  show (st_markdown (lit "---")) ;;
  show (st_subheader (lit "Previous Rounds")) ;;
  previous_rounds <- lift get_previous_rounds ;;
  for_each previous_rounds (round_panel user_id t inp).

(** The script below [current_round = get_current_round()]. *)
Definition page_body (user_id : str) (t : Times) (inp : Inputs)
                     (current_round : Round.t) : UI unit :=
  current_prompt <- lift (get_current_prompt current_round) ;;
  let total_chars := len current_prompt in
  let chars_remaining := (Z.of_nat CHAR_LIMIT - Z.of_nat total_chars)%Z in
  show (st_text_area (lit "Current Prompt") current_prompt) ;;
  show (st_metric (lit "Total Characters") (Z.of_nat total_chars)) ;;
  show (st_metric (lit "Characters Remaining") chars_remaining) ;;
  show (st_progress total_chars CHAR_LIMIT) ;;
  page_rest user_id t inp current_round chars_remaining.

(** The script, from [st.title] to the end. *)
Definition page (user_id : str) (t : Times) (inp : Inputs) : UI unit :=
  show (st_title (MUSICAL_NOTE :: lit " Rap Freestyle Word Contributor")) ;;
  current_round <- lift (get_current_round (t_round t)) ;;
  page_body user_id t inp current_round.

Close Scope ui_scope.

(** A page load: an empty screen, the script, and what is left. *)
Definition load (user_id : str) (t : Times) (inp : Inputs) (w : World)
  : (Halt + unit) * Screen :=
  page user_id t inp (mkScreen w []).


Definition noon : Times := mkTimes 5000%Z 5001%Z 5002%Z 5003%Z.

(** A run from screen [s] either leaves the store as it is, or it ends
    early, by a rerun or an exception, with a store that satisfies [P]. *)
Definition changes_at {A : Type} (m : UI A) (s : Screen)
                      (P : World -> Prop) : Prop :=
  world (snd (m s)) = world s \/
  (P (world (snd (m s))) /\ exists h, fst (m s) = inl h).

(** The words all have a text. *)
Definition words_have_text (w : World) : Prop :=
  forall d, In d (words_collection w) -> Word.word d <> [].






(** A run from screen [s] raises no Python exception of the store
    functions, and if it runs to its end the store is as it was. *)
Definition calm {A : Type} (m : UI A) (s : Screen) : Prop :=
  (forall e, fst (m s) <> inl (Raised e)) /\
  (forall a, fst (m s) = inr a -> world (snd (m s)) = world s).

(** * Properties *)

(** ** Lists, first match and update *)

Section CollectionFacts.
Context {D : Type}.
Implicit Types (q p : D -> bool) (upd : D -> D) (c : list D).

Lemma find_first_app_none q c d :
  find_first q c = None ->
  find_first q (c ++ [d]) = if q d then Some d else None.
Proof.
  unfold find_first. induction c as [|x c IH]; simpl.
  - intros _. reflexivity.
  - destruct (q x); [discriminate | exact IH].
Qed.

Lemma find_first_none_find_all q c :
  find_first q c = None -> find_all q c = [].
Proof.
  unfold find_first, find_all. induction c as [|x c IH]; simpl; auto.
  destruct (q x); [discriminate | exact IH].
Qed.

Lemma find_first_some q c d :
  find_first q c = Some d -> In d c /\ q d = true.
Proof. unfold find_first. apply find_some. Qed.

Lemma update_first_length q upd c :
  len (update_first q upd c) = len c.
Proof.
  unfold len. induction c as [|x c IH]; simpl; auto.
  destruct (q x); simpl; auto.
Qed.

Lemma update_first_no_match q upd c :
  find_first q c = None -> update_first q upd c = c.
Proof.
  unfold find_first. induction c as [|x c IH]; simpl; auto.
  destruct (q x); [discriminate |]. intros H. now rewrite IH.
Qed.

(** A query that the update does not disturb sees the updated document
    where it saw the old one. *)
Lemma find_first_update_same q upd c :
  (forall d, q d = true -> q (upd d) = true) ->
  find_first q (update_first q upd c) = option_map upd (find_first q c).
Proof.
  intros Hq. unfold find_first. induction c as [|x c IH]; simpl; auto.
  destruct (q x) eqn:E; simpl.
  - now rewrite (Hq x E).
  - now rewrite E.
Qed.

(** A query on other documents is blind to the update. *)
Lemma find_first_update_other p q upd c :
  (forall d, q d = true -> p d = false /\ p (upd d) = false) ->
  find_first p (update_first q upd c) = find_first p c.
Proof.
  intros Hpq. unfold find_first. induction c as [|x c IH]; simpl; auto.
  destruct (q x) eqn:E; simpl.
  - destruct (Hpq x E) as [H1 H2]. now rewrite H1, H2.
  - destruct (p x); auto.
Qed.

(** An update that keeps [p] on every document keeps the number of
    documents that satisfy [p]. *)
Lemma find_all_update_length p q upd c :
  (forall d, p (upd d) = p d) ->
  len (find_all p (update_first q upd c)) = len (find_all p c).
Proof.
  intros Hp. unfold len, find_all.
  induction c as [|x c IH]; simpl; auto.
  destruct (q x); simpl.
  - rewrite Hp. destruct (p x); reflexivity.
  - destruct (p x); simpl; auto.
Qed.

(** A document of the updated collection is an old one or the update of
    the first match. *)
Lemma update_first_in q upd c d :
  In d (update_first q upd c) ->
  In d c \/ exists d0, find_first q c = Some d0 /\ d = upd d0.
Proof.
  unfold find_first. induction c as [|x c IH]; simpl; auto.
  destruct (q x) eqn:E; simpl.
  - intros [<- | H]; [right; exists x; auto | auto].
  - intros [<- | H]; auto.
    destruct (IH H) as [H1 | (d0 & H1 & H2)]; auto.
    right. exists d0. auto.
Qed.

(** What a query that the update does not disturb finds afterwards: the
    document it found before, or its update when it was the first match. *)
Lemma find_first_update_cases p q upd c d :
  (forall x, p (upd x) = p x) ->
  find_first p c = Some d ->
  exists d',
    find_first p (update_first q upd c) = Some d' /\
    (d' = d \/ (find_first q c = Some d /\ d' = upd d)).
Proof.
  intros Hp. unfold find_first. induction c as [|x c IH]; simpl.
  - discriminate.
  - destruct (q x) eqn:Eq; simpl.
    + rewrite Hp. destruct (p x) eqn:Ep.
      * intros [= <-]. exists (upd x). auto.
      * intros H. exists d. auto.
    + destruct (p x) eqn:Ep.
      * intros [= <-]. exists x. auto.
      * intros H. destruct (IH H) as (d' & H1 & [H2 | [H2 H3]]);
          exists d'; auto.
Qed.

Lemma find_first_app_some p c c' d :
  find_first p c = Some d -> find_first p (c ++ c') = Some d.
Proof.
  unfold find_first. induction c as [|x c IH]; simpl; [discriminate |].
  destruct (p x); auto.
Qed.

Lemma find_all_app p c1 c2 :
  find_all p (c1 ++ c2) = find_all p c1 ++ find_all p c2.
Proof. unfold find_all. apply filter_app. Qed.
End CollectionFacts.

(** ** Strings *)

Lemma str_eqb_eq (a b : str) : str_eqb a b = true <-> a = b.
Proof.
  unfold str_eqb. destruct (list_eq_dec N.eq_dec a b); split; congruence.
Qed.

Lemma str_eqb_refl (a : str) : str_eqb a a = true.
Proof. now apply str_eqb_eq. Qed.

Lemma str_eqb_sym (a b : str) : str_eqb a b = str_eqb b a.
Proof.
  unfold str_eqb.
  destruct (list_eq_dec N.eq_dec a b), (list_eq_dec N.eq_dec b a);
    congruence.
Qed.

Lemma len_app {A : Type} (a b : list A) : len (a ++ b) = len a + len b.
Proof. unfold len. apply length_app. Qed.

Lemma join_len (sep w : str) (ws : list str) :
  len (join sep (w :: ws)) = total_len (w :: ws) + len sep * len ws.
Proof.
  revert w. induction ws as [|x ws IH]; intros w.
  - simpl. lia.
  - change (join sep (w :: x :: ws)) with (w ++ sep ++ join sep (x :: ws)).
    rewrite !len_app, IH.
    change (total_len (w :: x :: ws)) with (len w + total_len (x :: ws)).
    change (len (x :: ws)) with (S (len ws)). lia.
Qed.

(** ** Word manager *)

Lemma calculate_prompt_length_cons (w : str) (ws : list str) :
  calculate_prompt_length (w :: ws)
  = len BASE_PROMPT + total_len (w :: ws) + len ws.
Proof.
  unfold calculate_prompt_length.
  rewrite len_app, join_len.
  change (len (lit " ")) with 1. lia.
Qed.

(** C2, as the claim words it, fails: with the single word "fire" the
    function gives 72, the length of the base prompt directly followed by
    the word, and not 73, the length of base prompt, space, word. *)
Lemma calculate_prompt_length_no_extra_space :
  calculate_prompt_length [lit "fire"] = 72 /\
  len (BASE_PROMPT ++ lit " " ++ lit "fire") = 73 /\
  calculate_prompt_length [lit "fire"] <> spec_prompt_length [lit "fire"].
Proof.
  split; [reflexivity | split; [reflexivity |]].
  vm_compute. discriminate.
Qed.

(** C2, amended: the length of the empty list is the length of the base
    prompt; for a non-empty list it is the length of the base prompt
    directly followed by the words joined by single spaces, that is the base
    length plus the word lengths plus one per gap between two words, which
    is one less than the length with a space added after the base prompt. *)
Theorem calculate_prompt_length_exact :
  calculate_prompt_length [] = len BASE_PROMPT /\
  forall (w : str) (ws : list str),
    calculate_prompt_length (w :: ws)
    = len (BASE_PROMPT ++ join (lit " ") (w :: ws)) /\
    calculate_prompt_length (w :: ws)
    = len BASE_PROMPT + total_len (w :: ws) + len ws /\
    S (calculate_prompt_length (w :: ws)) = spec_prompt_length (w :: ws).
Proof.
  split; [reflexivity |].
  intros w ws. split; [reflexivity | split].
  - apply calculate_prompt_length_cons.
  - rewrite calculate_prompt_length_cons.
    unfold spec_prompt_length. rewrite !len_app, join_len.
    change (len (lit " ")) with 1. lia.
Qed.

(** One call of [add_word], unfolded: the check, and on success the two
    writes. *)
Lemma add_word_run (user_id : str) (now : datetime) (word : str)
                   (r : Round.t) (w : World) :
  run (add_word user_id now word r) w =
  let n := calculate_prompt_length (round_texts (Round._id r) w ++ [word]) in
  if CHAR_LIMIT <? n then (inr (false, msg_exceed), w)
  else
    (inr (true, msg_added),
     mkWorld
       (words_collection w ++
          [Word.mk (next_oid w) word (Some []) (Some now) (Some user_id)
                   (Round._id r)])
       (update_first (round_by_id (Round._id r)) (set_total_chars n)
                     (rounds_collection w))
       (N.succ (next_oid w))).
Proof.
  unfold run, add_word, bind, words_find, round_texts, round_words. simpl.
  destruct (CHAR_LIMIT <? _); reflexivity.
Qed.

Lemma round_by_id_set_total_chars (rid : ObjectId) (n : nat) (r : Round.t) :
  round_by_id rid (set_total_chars n r) = round_by_id rid r.
Proof. reflexivity. Qed.

(** C1: when the recomputed length is above the ceiling, [add_word] answers
    failure with its message and the world is the one it started from, word
    list and [total_chars] included; and whatever the outcome, a round
    document of the resulting store is either a document that was there
    before, untouched, or one whose [total_chars] is at most 200, so rounds
    within the ceiling stay within it. *)
Theorem add_word_never_exceeds_limit
        (user_id : str) (now : datetime) (word : str) (r : Round.t)
        (w : World) :
  (CHAR_LIMIT < calculate_prompt_length (round_texts (Round._id r) w ++ [word])
   -> run (add_word user_id now word r) w = (inr (false, msg_exceed), w)) /\
  (forall r',
      In r' (rounds_collection (exec (add_word user_id now word r) w)) ->
      In r' (rounds_collection w) \/ Round.total_chars r' <= CHAR_LIMIT) /\
  (Forall (fun r' => Round.total_chars r' <= CHAR_LIMIT)
          (rounds_collection w) ->
   Forall (fun r' => Round.total_chars r' <= CHAR_LIMIT)
          (rounds_collection (exec (add_word user_id now word r) w))).
Proof.
  assert (Hin : forall r',
      In r' (rounds_collection (exec (add_word user_id now word r) w)) ->
      In r' (rounds_collection w) \/ Round.total_chars r' <= CHAR_LIMIT).
  { intros r'. unfold exec. rewrite add_word_run. cbv zeta.
    destruct (CHAR_LIMIT <? _) eqn:E; simpl; auto.
    intros H. apply update_first_in in H.
    destruct H as [H | (d0 & _ & ->)]; auto.
    right. simpl. apply Nat.ltb_ge in E. exact E. }
  split; [| split; [exact Hin |]].
  - intros H. rewrite add_word_run. cbv zeta.
    apply Nat.ltb_lt in H. now rewrite H.
  - intros Hall. apply Forall_forall. intros r' Hr'.
    destruct (Hin r' Hr') as [H | H]; auto.
    rewrite Forall_forall in Hall. now apply Hall.
Qed.

Lemma add_word_never_exceeds_limit_witness :
  run (add_word (hex_user "a00000000000000000000001") 1010%Z long_word
                first_round) opened_world
  = (inr (false, msg_exceed), opened_world) /\
  Forall (fun r' => Round.total_chars r' <= CHAR_LIMIT)
         (rounds_collection
            (exec (add_word (hex_user "a00000000000000000000001") 1010%Z
                            long_word first_round) opened_world)).
Proof.
  pose proof (add_word_never_exceeds_limit
                (hex_user "a00000000000000000000001") 1010%Z long_word
                first_round opened_world) as [Hfail [_ Hkeep]].
  split.
  - apply Hfail. apply Nat.ltb_lt. vm_compute. reflexivity.
  - apply Hkeep. vm_compute.
    constructor; [apply Nat.leb_le; reflexivity | constructor].
Defined.

(** The entries of a round whose text is [word]. *)
Lemma same_text_app (word : str) (l1 l2 : list Word.t) :
  filter (fun d => str_eqb (Word.word d) word) (l1 ++ l2)
  = filter (fun d => str_eqb (Word.word d) word) l1
    ++ filter (fun d => str_eqb (Word.word d) word) l2.
Proof. apply filter_app. Qed.

(** C9: when the recomputed total is within the ceiling, [add_word] answers
    success with its message; the words collection gains exactly one
    document, at its end, with the text, an empty vote list, the instant,
    the submitting user and the id of the round; the stored round gets the
    new total as [total_chars], which is then [calculate_prompt_length] of
    the words stored for the round; other rounds are as before; and the
    entries of the round carrying this very text grow by one, whether or
    not there were some already. *)
Theorem add_word_inserts
        (user_id : str) (now : datetime) (word : str) (r : Round.t)
        (w : World) :
  let rid := Round._id r in
  let new_total := calculate_prompt_length (round_texts rid w ++ [word]) in
  let doc := Word.mk (next_oid w) word (Some []) (Some now) (Some user_id)
                     rid in
  let w' := exec (add_word user_id now word r) w in
  new_total <= CHAR_LIMIT ->
  fst (run (add_word user_id now word r) w) = inr (true, msg_added) /\
  words_collection w' = words_collection w ++ [doc] /\
  round_words rid w' = round_words rid w ++ [doc] /\
  (forall r0,
      find_first (round_by_id rid) (rounds_collection w) = Some r0 ->
      find_first (round_by_id rid) (rounds_collection w')
      = Some (set_total_chars new_total r0) /\
      Round.total_chars (set_total_chars new_total r0)
      = calculate_prompt_length (round_texts rid w')) /\
  (forall rid',
      rid' <> rid ->
      find_first (round_by_id rid') (rounds_collection w')
      = find_first (round_by_id rid') (rounds_collection w)) /\
  len (filter (fun d => str_eqb (Word.word d) word) (round_words rid w'))
  = S (len (filter (fun d => str_eqb (Word.word d) word)
                   (round_words rid w))).
Proof.
  intros rid new_total doc w' Hle.
  assert (Hrun : run (add_word user_id now word r) w
                 = (inr (true, msg_added),
                    mkWorld (words_collection w ++ [doc])
                            (update_first (round_by_id rid)
                                          (set_total_chars new_total)
                                          (rounds_collection w))
                            (N.succ (next_oid w)))).
  { rewrite add_word_run. cbv zeta. fold rid. fold new_total.
    apply Nat.ltb_ge in Hle. rewrite Hle. reflexivity. }
  assert (Hw' : w' = mkWorld (words_collection w ++ [doc])
                            (update_first (round_by_id rid)
                                          (set_total_chars new_total)
                                          (rounds_collection w))
                            (N.succ (next_oid w))).
  { unfold w', exec. now rewrite Hrun. }
  clearbody w'. subst w'. rewrite Hrun.
  assert (Hwords : forall rs n,
             round_words rid (mkWorld (words_collection w ++ [doc]) rs n)
             = round_words rid w ++ [doc]).
  { intros rs n. unfold round_words. simpl.
    rewrite find_all_app. simpl. unfold by_round_id at 2. simpl.
    now rewrite N.eqb_refl. }
  simpl.
  split; [reflexivity | split; [reflexivity | split; [| split; [| split]]]].
  - apply Hwords.
  - intros r0 Hr0. split.
    + rewrite find_first_update_same by auto. now rewrite Hr0.
    + simpl. unfold new_total, round_texts.
      rewrite Hwords, map_app. reflexivity.
  - intros rid' Hne. apply find_first_update_other.
    intros d Hd. unfold round_by_id in *. simpl.
    apply N.eqb_eq in Hd. rewrite Hd.
    split; apply N.eqb_neq; congruence.
  - rewrite Hwords, same_text_app, len_app. simpl.
    rewrite str_eqb_refl. simpl. lia.
Qed.

(** "fire" submitted a second time to a round that already has it. *)
Lemma add_word_inserts_witness :
  let w := step (AddWord (hex_user "a00000000000000000000001") 1010%Z
                         (lit "fire") first_round) opened_world in
  fst (run (add_word (hex_user "a00000000000000000000002") 1011%Z
                     (lit "fire") first_round) w)
  = inr (true, msg_added) /\
  len (filter (fun d => str_eqb (Word.word d) (lit "fire"))
              (round_words 1%N
                 (exec (add_word (hex_user "a00000000000000000000002")
                                 1011%Z (lit "fire") first_round) w)))
  = 2.
Proof.
  intros w.
  assert (Hle : calculate_prompt_length
                  (round_texts (Round._id first_round) w ++ [lit "fire"])
                <= CHAR_LIMIT).
  { apply Nat.leb_le. vm_compute. reflexivity. }
  pose proof (add_word_inserts (hex_user "a00000000000000000000002")
                               1011%Z (lit "fire") first_round w Hle)
    as (Hres & _ & _ & _ & _ & Hdup).
  split; [exact Hres |]. exact Hdup.
Defined.

(** ** Voting *)

Lemma str_in_votes_of_false (u : str) (vs : list Vote.t) :
  str_in u (voters vs) = false -> votes_of u vs = [].
Proof.
  unfold str_in, voters, votes_of.
  induction vs as [|v vs IH]; simpl; auto.
  rewrite (str_eqb_sym u). destruct (str_eqb (Vote.user_id v) u); simpl.
  - discriminate.
  - exact IH.
Qed.

Lemma str_in_votes_of_true (u : str) (vs : list Vote.t) :
  str_in u (voters vs) = true -> 1 <= len (votes_of u vs).
Proof.
  unfold str_in, voters, votes_of.
  induction vs as [|v vs IH]; simpl; [discriminate |].
  rewrite (str_eqb_sym u). destruct (str_eqb (Vote.user_id v) u); simpl.
  - intros _. unfold len. simpl. lia.
  - exact IH.
Qed.

Lemma str_in_after_vote (u : str) (now : datetime) (vs : list Vote.t) :
  str_in u (voters (vs ++ [Vote.mk u now])) = true.
Proof.
  unfold str_in, voters. rewrite map_app, existsb_app. simpl.
  rewrite str_eqb_refl. apply orb_true_iff. right. reflexivity.
Qed.

Lemma votes_of_after_vote (u : str) (now : datetime) (vs : list Vote.t) :
  votes_of u (vs ++ [Vote.mk u now]) = votes_of u vs ++ [Vote.mk u now].
Proof.
  unfold votes_of. rewrite filter_app. simpl. now rewrite str_eqb_refl.
Qed.

(** One call of [vote_for_word], unfolded. *)
Lemma vote_for_word_run (u : str) (now : datetime) (wid : ObjectId)
                        (w : World) :
  run (vote_for_word u now wid) w =
  match find_first (word_by_id wid) (words_collection w) with
  | None =>
      (inl (AttributeError "'NoneType' object has no attribute 'get'"), w)
  | Some word =>
      if str_in u (voters (get_votes (Word.votes word))) then (inr tt, w)
      else
        (inr tt,
         mkWorld (update_first (word_by_id wid)
                               (push_word_vote (Vote.mk u now))
                               (words_collection w))
                 (rounds_collection w) (next_oid w))
  end.
Proof.
  unfold run, vote_for_word, bind, words_find_one. simpl.
  destruct (find_first _ _) as [word|]; [| reflexivity].
  destruct (str_in _ _); reflexivity.
Qed.

Lemma word_by_id_push (wid : ObjectId) (v : Vote.t) (d : Word.t) :
  word_by_id wid (push_word_vote v d) = word_by_id wid d.
Proof. reflexivity. Qed.

Lemma word_by_id_other (wid wid' : ObjectId) (upd : Word.t -> Word.t) :
  wid' <> wid ->
  (forall d, Word._id (upd d) = Word._id d) ->
  forall d, word_by_id wid d = true ->
            word_by_id wid' d = false /\ word_by_id wid' (upd d) = false.
Proof.
  intros Hne Hid d Hd. unfold word_by_id in *. rewrite Hid.
  apply N.eqb_eq in Hd. rewrite Hd. split; apply N.eqb_neq; congruence.
Qed.

(** C3: for a word that exists, a vote by a user already among its voters
    changes nothing; a vote by a user who is not appends one entry, that
    user with the instant, at the end of that word's list and touches no
    other word and no round; a second call by the same user then changes
    nothing, so a user with at most one entry before has exactly one after
    two calls, and a word without votes has a list of length 1. *)
Theorem vote_for_word_once
        (u : str) (now now' : datetime) (wid : ObjectId) (w : World)
        (word : Word.t) :
  find_first (word_by_id wid) (words_collection w) = Some word ->
  let vs := get_votes (Word.votes word) in
  let w1 := exec (vote_for_word u now wid) w in
  let w2 := exec (vote_for_word u now' wid) w1 in
  (str_in u (voters vs) = true ->
   run (vote_for_word u now wid) w = (inr tt, w)) /\
  (str_in u (voters vs) = false ->
   fst (run (vote_for_word u now wid) w) = inr tt /\
   find_first (word_by_id wid) (words_collection w1)
   = Some (push_word_vote (Vote.mk u now) word) /\
   Word.votes (push_word_vote (Vote.mk u now) word)
   = Some (vs ++ [Vote.mk u now]) /\
   (forall wid', wid' <> wid ->
      find_first (word_by_id wid') (words_collection w1)
      = find_first (word_by_id wid') (words_collection w)) /\
   len (words_collection w1) = len (words_collection w) /\
   rounds_collection w1 = rounds_collection w) /\
  run (vote_for_word u now' wid) w1 = (inr tt, w1) /\
  (len (votes_of u vs) <= 1 ->
   exists word2,
     find_first (word_by_id wid) (words_collection w2) = Some word2 /\
     len (votes_of u (get_votes (Word.votes word2))) = 1) /\
  (vs = [] ->
   exists word2,
     find_first (word_by_id wid) (words_collection w2) = Some word2 /\
     len (get_votes (Word.votes word2)) = 1).
Proof.
  intros Hfind vs w1 w2.
  assert (Hyes : str_in u (voters vs) = true ->
                 run (vote_for_word u now wid) w = (inr tt, w)).
  { intros Hin. rewrite vote_for_word_run, Hfind. fold vs. now rewrite Hin. }
  assert (Hno : str_in u (voters vs) = false ->
                w1 = mkWorld (update_first (word_by_id wid)
                                           (push_word_vote (Vote.mk u now))
                                           (words_collection w))
                             (rounds_collection w) (next_oid w) /\
                find_first (word_by_id wid) (words_collection w1)
                = Some (push_word_vote (Vote.mk u now) word)).
  { intros Hin.
    assert (E : w1 = mkWorld (update_first (word_by_id wid)
                                           (push_word_vote (Vote.mk u now))
                                           (words_collection w))
                             (rounds_collection w) (next_oid w)).
    { unfold w1, exec. rewrite vote_for_word_run, Hfind. fold vs.
      now rewrite Hin. }
    split; [exact E |]. rewrite E. simpl.
    rewrite find_first_update_same by auto. now rewrite Hfind. }
  assert (Hsecond : run (vote_for_word u now' wid) w1 = (inr tt, w1)).
  { destruct (str_in u (voters vs)) eqn:Hin.
    - assert (E : w1 = w) by (unfold w1, exec; now rewrite Hyes).
      rewrite E. rewrite vote_for_word_run, Hfind. fold vs. now rewrite Hin.
    - destruct (Hno eq_refl) as [_ Hf1].
      rewrite vote_for_word_run, Hf1. simpl. fold vs.
      now rewrite str_in_after_vote. }
  assert (Hw2 : w2 = w1) by (unfold w2, exec; now rewrite Hsecond).
  split; [exact Hyes | split; [| split; [exact Hsecond | split]]].
  - intros Hin. destruct (Hno Hin) as [E Hf1].
    split; [| split; [exact Hf1 | split; [reflexivity | split; [| split]]]].
    + rewrite vote_for_word_run, Hfind. fold vs. now rewrite Hin.
    + intros wid' Hne. rewrite E. simpl. apply find_first_update_other.
      now apply word_by_id_other.
    + rewrite E. simpl. apply update_first_length.
    + rewrite E. reflexivity.
  - intros Hcount. rewrite Hw2.
    destruct (str_in u (voters vs)) eqn:Hin.
    + exists word. split.
      * assert (E : w1 = w) by (unfold w1, exec; now rewrite Hyes).
        now rewrite E.
      * fold vs. apply str_in_votes_of_true in Hin. lia.
    + destruct (Hno eq_refl) as [_ Hf1].
      exists (push_word_vote (Vote.mk u now) word). split; [exact Hf1 |].
      simpl. fold vs. rewrite votes_of_after_vote, len_app.
      rewrite (str_in_votes_of_false _ _ Hin). reflexivity.
  - intros Hempty. rewrite Hw2.
    assert (Hin : str_in u (voters vs) = false) by (now rewrite Hempty).
    destruct (Hno Hin) as [_ Hf1].
    exists (push_word_vote (Vote.mk u now) word). split; [exact Hf1 |].
    simpl. fold vs. rewrite Hempty. reflexivity.
Qed.

(** A first and a second vote of one session for "fire", and a vote of a
    session that is already among the voters. *)
Lemma vote_for_word_once_witness :
  let u := hex_user "f00000000000000000000001" in
  let w1 := exec (vote_for_word u 1020%Z 2%N) fire_world in
  (exists word2,
      find_first (word_by_id 2%N)
                 (words_collection (exec (vote_for_word u 1021%Z 2%N) w1))
      = Some word2 /\
      len (get_votes (Word.votes word2)) = 1) /\
  run (vote_for_word u 1021%Z 2%N) w1 = (inr tt, w1).
Proof.
  intros u w1.
  assert (Hfind : find_first (word_by_id 2%N) (words_collection fire_world)
                  = Some fire_doc) by reflexivity.
  pose proof (vote_for_word_once u 1020%Z 1021%Z 2%N fire_world Hfind)
    as (_ & _ & _ & _ & Hfresh).
  split; [apply Hfresh; reflexivity |].
  assert (Hfind1 : find_first (word_by_id 2%N) (words_collection w1)
                   = Some (push_word_vote (Vote.mk u 1020%Z) fire_doc))
    by reflexivity.
  pose proof (vote_for_word_once u 1021%Z 1021%Z 2%N w1 Hfind1)
    as (Hvoted & _).
  apply Hvoted. reflexivity.
Defined.

(** C10: a call of [vote_for_word] with an id that no stored word has
    raises, on the missing record, and leaves the world as it was; a call
    with the id of a stored word returns normally; so the call raises
    exactly when the word does not exist. [vote_for_song], on a round id
    that is not stored, returns false instead. *)
Theorem vote_for_word_missing_word_raises
        (u : str) (now : datetime) (wid : ObjectId) (w : World) :
  (find_first (word_by_id wid) (words_collection w) = None ->
   run (vote_for_word u now wid) w
   = (inl (AttributeError "'NoneType' object has no attribute 'get'"), w)) /\
  (forall word,
      find_first (word_by_id wid) (words_collection w) = Some word ->
      fst (run (vote_for_word u now wid) w) = inr tt) /\
  (find_first (word_by_id wid) (words_collection w) = None <->
   exists e, fst (run (vote_for_word u now wid) w) = inl e) /\
  (forall rid,
      find_first (round_by_id rid) (rounds_collection w) = None ->
      run (vote_for_song u now rid) w = (inr false, w)).
Proof.
  split; [| split; [| split]].
  - intros H. now rewrite vote_for_word_run, H.
  - intros word H. rewrite vote_for_word_run, H.
    destruct (str_in _ _); reflexivity.
  - rewrite vote_for_word_run.
    destruct (find_first _ _) as [word|].
    + split; [discriminate |]. intros [e He].
      destruct (str_in _ _); discriminate.
    + split; [| reflexivity]. intros _. eexists. reflexivity.
  - intros rid H. unfold run, vote_for_song, bind, rounds_find_one. simpl.
    now rewrite H.
Qed.

Lemma vote_for_word_missing_word_raises_witness :
  run (vote_for_word (hex_user "f00000000000000000000001") 1020%Z 99%N)
      fire_world
  = (inl (AttributeError "'NoneType' object has no attribute 'get'"),
     fire_world) /\
  fst (run (vote_for_word (hex_user "f00000000000000000000001") 1020%Z 2%N)
           fire_world) = inr tt /\
  run (vote_for_song (hex_user "f00000000000000000000001") 1020%Z 99%N)
      fire_world = (inr false, fire_world).
Proof.
  pose proof (vote_for_word_missing_word_raises
                (hex_user "f00000000000000000000001") 1020%Z 99%N fire_world)
    as (Hraise & _ & _ & Hsong).
  pose proof (vote_for_word_missing_word_raises
                (hex_user "f00000000000000000000001") 1020%Z 2%N fire_world)
    as (_ & Hok & _).
  split; [apply Hraise; reflexivity |].
  split; [apply (Hok fire_doc); reflexivity |].
  apply Hsong. reflexivity.
Defined.

(** One call of [vote_for_song], unfolded. *)
Lemma vote_for_song_run (u : str) (now : datetime) (rid : ObjectId)
                        (w : World) :
  run (vote_for_song u now rid) w =
  match find_first (round_by_id rid) (rounds_collection w) with
  | None => (inr false, w)
  | Some round =>
      match Round.generated_songs round, Round.votes round with
      | None, _ => (inr false, w)
      | Some _, None =>
          (inr true,
           mkWorld (words_collection w)
                   (update_first (round_by_id rid)
                      (push_round_vote (Vote.mk u now))
                      (update_first (round_by_id rid) (set_round_votes [])
                                    (rounds_collection w)))
                   (next_oid w))
      | Some _, Some vs =>
          if str_in u (voters vs) then (inr false, w)
          else
            (inr true,
             mkWorld (words_collection w)
                     (update_first (round_by_id rid)
                                   (push_round_vote (Vote.mk u now))
                                   (rounds_collection w))
                     (next_oid w))
      end
  end.
Proof.
  unfold run, vote_for_song, bind, rounds_find_one. simpl.
  destruct (find_first _ _) as [round|]; [| reflexivity].
  destruct (Round.generated_songs round); [| reflexivity].
  destruct (Round.votes round) as [vs|] eqn:Ev; simpl.
  - rewrite Ev. simpl. destruct (str_in u (voters vs)); reflexivity.
  - reflexivity.
Qed.

Lemma round_by_id_other (rid rid' : ObjectId) (upd : Round.t -> Round.t) :
  rid' <> rid ->
  (forall r, Round._id (upd r) = Round._id r) ->
  forall r, round_by_id rid r = true ->
            round_by_id rid' r = false /\ round_by_id rid' (upd r) = false.
Proof.
  intros Hne Hid r Hr. unfold round_by_id in *. rewrite Hid.
  apply N.eqb_eq in Hr. rewrite Hr. split; apply N.eqb_neq; congruence.
Qed.

(** A user who is among the voters of a round with songs gets false, and
    nothing changes. *)
Lemma vote_for_song_again (u : str) (now : datetime) (rid : ObjectId)
                          (w : World) (round : Round.t) :
  find_first (round_by_id rid) (rounds_collection w) = Some round ->
  str_in u (voters (get_votes (Round.votes round))) = true ->
  run (vote_for_song u now rid) w = (inr false, w).
Proof.
  intros Hfind Hin. rewrite vote_for_song_run, Hfind.
  destruct (Round.generated_songs round); [| reflexivity].
  destruct (Round.votes round) as [vs|]; simpl in Hin.
  - now rewrite Hin.
  - discriminate.
Qed.

Lemma vote_for_song_again_each (u : str) (rid : ObjectId) (w : World)
                               (round : Round.t) (nows : list datetime) :
  find_first (round_by_id rid) (rounds_collection w) = Some round ->
  str_in u (voters (get_votes (Round.votes round))) = true ->
  call_each (fun t => vote_for_song u t rid) nows w
  = (repeat (inr false) (len nows), w).
Proof.
  intros Hfind Hin. induction nows as [|t nows IH]; simpl; [reflexivity |].
  rewrite (vote_for_song_again u t rid w Hfind Hin), IH. reflexivity.
Qed.

(** The first vote of a user on a round with songs. *)
Lemma vote_for_song_first (u : str) (now : datetime) (rid : ObjectId)
                          (w : World) (round : Round.t) :
  find_first (round_by_id rid) (rounds_collection w) = Some round ->
  Round.generated_songs round <> None ->
  str_in u (voters (get_votes (Round.votes round))) = false ->
  exists rounds',
    run (vote_for_song u now rid) w
    = (inr true, mkWorld (words_collection w) rounds' (next_oid w)) /\
    find_first (round_by_id rid) rounds'
    = Some (set_round_votes
              (get_votes (Round.votes round) ++ [Vote.mk u now]) round) /\
    len rounds' = len (rounds_collection w) /\
    (forall rid', rid' <> rid ->
       find_first (round_by_id rid') rounds'
       = find_first (round_by_id rid') (rounds_collection w)) /\
    (forall s, len (find_all (by_status s) rounds')
               = len (find_all (by_status s) (rounds_collection w))).
Proof.
  intros Hfind Hsongs Hin. rewrite vote_for_song_run, Hfind.
  destruct (Round.generated_songs round) as [songs|] eqn:Es;
    [| congruence].
  destruct (Round.votes round) as [vs|] eqn:Ev; simpl in Hin |- *.
  - rewrite Hin. eexists. split; [reflexivity |].
    split; [| split; [| split]].
    + rewrite find_first_update_same by auto. rewrite Hfind. simpl.
      unfold push_round_vote. now rewrite Ev.
    + apply update_first_length.
    + intros rid' Hne. apply find_first_update_other.
      now apply round_by_id_other.
    + intros s. now apply find_all_update_length.
  - eexists. split; [reflexivity |].
    split; [| split; [| split]].
    + rewrite !find_first_update_same by auto. rewrite Hfind. reflexivity.
    + now rewrite !update_first_length.
    + intros rid' Hne.
      rewrite !find_first_update_other by (now apply round_by_id_other).
      reflexivity.
    + intros s. now rewrite !find_all_update_length.
Qed.

(** ** Round manager *)

Lemma by_status_true (s : str) (r : Round.t) :
  by_status s r = true <-> Round.status r = s.
Proof. apply str_eqb_eq. Qed.

Lemma find_first_active_none (rounds : list Round.t) :
  find_first (by_status (lit "active")) rounds = None <->
  (forall r, In r rounds -> Round.status r <> lit "active").
Proof.
  unfold find_first. split.
  - intros H r Hr Hs. apply (find_none _ _ H) in Hr.
    apply by_status_true in Hs. congruence.
  - intros H. destruct (find _ _) as [r|] eqn:E; [| reflexivity].
    apply find_some in E. destruct E as [Hr Hs].
    apply by_status_true in Hs. now destruct (H r Hr).
Qed.

(** One call of [get_current_round], unfolded. *)
Lemma get_current_round_run (now : datetime) (w : World) :
  run (get_current_round now) w =
  match find_first (by_status (lit "active")) (rounds_collection w) with
  | Some r => (inr r, w)
  | None =>
      let r := Round.mk (next_oid w)
                        (Z.of_nat (len (rounds_collection w)) + 1)
                        (lit "active") now (len BASE_PROMPT) None None in
      (inr r,
       mkWorld (words_collection w) (rounds_collection w ++ [r])
               (N.succ (next_oid w)))
  end.
Proof.
  unfold run, get_current_round, bind, rounds_find_one. simpl.
  destruct (find_first _ _); reflexivity.
Qed.

(** C6: when some stored round has status active, [get_current_round]
    returns a stored round with status active (the first one) and the world
    is unchanged; when none has, it appends one round to the rounds
    collection and returns it: its number is the count of the rounds stored
    so far plus 1, its status is active, its [total_chars] is the length of
    the base prompt and it has neither votes nor songs; on an empty store
    this is round #1. *)
Theorem get_current_round_finds_or_creates (now : datetime) (w : World) :
  ((exists r, In r (rounds_collection w) /\ Round.status r = lit "active") ->
   exists r,
     run (get_current_round now) w = (inr r, w) /\
     In r (rounds_collection w) /\ Round.status r = lit "active" /\
     find_first (by_status (lit "active")) (rounds_collection w) = Some r) /\
  ((forall r, In r (rounds_collection w) -> Round.status r <> lit "active") ->
   exists r,
     run (get_current_round now) w
     = (inr r,
        mkWorld (words_collection w) (rounds_collection w ++ [r])
                (N.succ (next_oid w))) /\
     Round.round_number r = (Z.of_nat (len (rounds_collection w)) + 1)%Z /\
     Round.status r = lit "active" /\
     Round.total_chars r = len BASE_PROMPT /\
     Round.created_at r = now /\
     Round.votes r = None /\ Round.generated_songs r = None) /\
  (rounds_collection w = [] ->
   exists r,
     fst (run (get_current_round now) w) = inr r /\
     rounds_collection (exec (get_current_round now) w) = [r] /\
     Round.round_number r = 1%Z /\
     Round.status r = lit "active" /\
     Round.total_chars r = len BASE_PROMPT).
Proof.
  split; [| split].
  - intros (r0 & Hr0 & Hs0). rewrite get_current_round_run.
    destruct (find_first _ _) as [r|] eqn:E.
    + exists r. apply find_first_some in E. destruct E as [Hr Hs].
      apply by_status_true in Hs. auto.
    + now destruct (proj1 (find_first_active_none _) E r0 Hr0).
  - intros Hnone. apply (proj2 (find_first_active_none _)) in Hnone.
    rewrite get_current_round_run, Hnone. cbv zeta.
    eexists. split; [reflexivity |]. simpl. auto 10.
  - intros Hempty. unfold exec. rewrite get_current_round_run, Hempty.
    simpl. eexists. split; [reflexivity |]. simpl. auto.
Qed.

Lemma get_current_round_finds_or_creates_witness :
  (exists r,
      run (get_current_round 3000%Z) ranking_world = (inr r, ranking_world) /\
      Round.round_number r = 4%Z) /\
  (exists r,
      fst (run (get_current_round 3000%Z) unvoted_world) = inr r /\
      Round.round_number r = 2%Z) /\
  (exists r,
      fst (run (get_current_round 1000%Z) empty_world) = inr r /\
      Round.round_number r = 1%Z /\ Round.total_chars r = 68).
Proof.
  pose proof (get_current_round_finds_or_creates 3000%Z ranking_world)
    as (Hfound & _ & _).
  pose proof (get_current_round_finds_or_creates 3000%Z unvoted_world)
    as (_ & Hcreate & _).
  pose proof (get_current_round_finds_or_creates 1000%Z empty_world)
    as (_ & _ & Hempty).
  split; [| split].
  - destruct Hfound as (r & Hrun & _ & _ & Hf).
    + exists (Round.mk 4%N 4%Z (lit "active") 1000%Z 68 None None).
      split; [| reflexivity]. simpl. auto.
    + exists r. split; [exact Hrun |].
      vm_compute in Hf. injection Hf as <-. reflexivity.
  - destruct Hcreate as (r & Hrun & Hn & _).
    + intros r [<- | []]. discriminate.
    + exists r. rewrite Hrun. split; [reflexivity |]. rewrite Hn.
      reflexivity.
  - destruct (Hempty eq_refl) as (r & Hrun & _ & Hn & _ & Hc).
    exists r. auto.
Defined.

(** ** The stable sort *)

Section SortFacts.
Variable A : Type.
Variable leb : A -> A -> bool.
Hypothesis leb_total : forall x y, leb x y = false -> leb y x = true.
Hypothesis leb_trans :
  forall x y z, leb x y = true -> leb y z = true -> leb x z = true.

Lemma insert_sorted_perm (x : A) (l : list A) :
  Permutation (insert_sorted leb x l) (x :: l).
Proof.
  induction l as [|y l IH]; simpl; [reflexivity |].
  destruct (leb x y); [reflexivity |].
  rewrite IH. apply perm_swap.
Qed.

Lemma stable_sort_perm (l : list A) : Permutation (stable_sort leb l) l.
Proof.
  induction l as [|x l IH]; simpl; [reflexivity |].
  rewrite insert_sorted_perm. now constructor.
Qed.

Lemma insert_sorted_sorted (x : A) (l : list A) :
  StronglySorted (fun a b => leb a b = true) l ->
  StronglySorted (fun a b => leb a b = true) (insert_sorted leb x l).
Proof.
  induction 1 as [|y l Hl IH Hy]; simpl.
  - repeat constructor.
  - destruct (leb x y) eqn:E.
    + constructor; [now constructor |].
      constructor; [exact E |].
      eapply Forall_impl; [| exact Hy].
      intros z Hz. now apply leb_trans with y.
    + constructor; [exact IH |].
      apply (Permutation_Forall (Permutation_sym (insert_sorted_perm x l))).
      constructor; [now apply leb_total | exact Hy].
Qed.

Lemma stable_sort_sorted (l : list A) :
  StronglySorted (fun a b => leb a b = true) (stable_sort leb l).
Proof.
  induction l as [|x l IH]; simpl; [constructor |].
  now apply insert_sorted_sorted.
Qed.
End SortFacts.

(** ** Previous rounds *)

Lemma get_previous_rounds_run (w : World) :
  run get_previous_rounds w
  = (inr (stable_sort previous_leb
            (map annotate
               (find_all (by_status (lit "completed"))
                         (rounds_collection w)))),
     w).
Proof. reflexivity. Qed.

Lemma previous_leb_ranks (x y : Previous.t) :
  previous_leb x y = true <-> ranks_before x y.
Proof.
  unfold previous_leb, key_leb, previous_key, ranks_before. simpl.
  rewrite orb_true_iff, andb_true_iff, Z.ltb_lt, Z.eqb_eq, Z.leb_le. lia.
Qed.

Lemma previous_leb_total (x y : Previous.t) :
  previous_leb x y = false -> previous_leb y x = true.
Proof.
  intros H. apply previous_leb_ranks.
  assert (Hn : ~ ranks_before x y).
  { intros Hr. apply previous_leb_ranks in Hr. congruence. }
  unfold ranks_before in *. lia.
Qed.

Lemma previous_leb_trans (x y z : Previous.t) :
  previous_leb x y = true -> previous_leb y z = true ->
  previous_leb x z = true.
Proof.
  rewrite !previous_leb_ranks. unfold ranks_before. lia.
Qed.

Lemma StronglySorted_weaken {A : Type} (R S : A -> A -> Prop) (l : list A) :
  (forall x y, R x y -> S x y) -> StronglySorted R l -> StronglySorted S l.
Proof.
  intros HRS. induction 1 as [|x l Hl IH Hx]; constructor; auto.
  eapply Forall_impl; [| exact Hx]. auto.
Qed.

Lemma map_round_annotate (l : list Round.t) :
  map Previous.round (map annotate l) = l.
Proof. rewrite map_map. simpl. apply map_id. Qed.

Lemma annotated_again (res : list Previous.t) :
  Forall (fun x => Previous.vote_count x
                   = len (get_votes (Round.votes (Previous.round x)))) res ->
  res = map annotate (map Previous.round res).
Proof.
  induction 1 as [|x res Hx _ IH]; simpl; [reflexivity |].
  rewrite <- IH. f_equal. destruct x as [r n]. simpl in *. now subst.
Qed.

(** What the result of [get_previous_rounds] is, for any store. *)
Lemma get_previous_rounds_spec (w : World) :
  exists res,
    run get_previous_rounds w = (inr res, w) /\
    Permutation (map Previous.round res)
                (find_all (by_status (lit "completed"))
                          (rounds_collection w)) /\
    Forall (fun x => Previous.vote_count x
                     = len (get_votes (Round.votes (Previous.round x))))
           res /\
    StronglySorted ranks_before res.
Proof.
  rewrite get_previous_rounds_run. eexists. split; [reflexivity |].
  set (l := find_all _ _).
  assert (Hperm : Permutation (stable_sort previous_leb (map annotate l))
                              (map annotate l))
    by apply stable_sort_perm.
  split; [| split].
  - rewrite <- (map_round_annotate l) at 2. now apply Permutation_map.
  - apply (Permutation_Forall (Permutation_sym Hperm)).
    apply Forall_forall. intros x Hx. apply in_map_iff in Hx.
    destruct Hx as (r & <- & _). reflexivity.
  - apply StronglySorted_weaken
      with (R := fun x y => previous_leb x y = true).
    + intros x y. apply previous_leb_ranks.
    + apply stable_sort_sorted.
      * apply previous_leb_total.
      * apply previous_leb_trans.
Qed.

(** Three rounds numbered 1, 2, 3 with 3, 1, 3 votes have one ranking. *)
Lemma ranking_of_three (r1 r2 r3 : Round.t) (l : list Round.t) :
  Round.round_number r1 = 1%Z -> len (get_votes (Round.votes r1)) = 3 ->
  Round.round_number r2 = 2%Z -> len (get_votes (Round.votes r2)) = 1 ->
  Round.round_number r3 = 3%Z -> len (get_votes (Round.votes r3)) = 3 ->
  Permutation l [r1; r2; r3] ->
  StronglySorted ranks_before (map annotate l) ->
  l = [r3; r1; r2].
Proof.
  intros N1 V1 N2 V2 N3 V3 Hperm Hsorted.
  pose proof (Permutation_length Hperm) as Hlen.
  destruct l as [|a [|b [|c [|d l]]]]; try discriminate. clear Hlen.
  assert (Ha : In a [r1; r2; r3])
    by (apply (Permutation_in _ Hperm); simpl; auto).
  assert (Hb : In b [r1; r2; r3])
    by (apply (Permutation_in _ Hperm); simpl; auto).
  assert (Hc : In c [r1; r2; r3])
    by (apply (Permutation_in _ Hperm); simpl; auto).
  apply Permutation_sym in Hperm.
  assert (H1 : In r1 [a; b; c])
    by (apply (Permutation_in _ Hperm); simpl; auto).
  assert (H2 : In r2 [a; b; c])
    by (apply (Permutation_in _ Hperm); simpl; auto).
  assert (H3 : In r3 [a; b; c])
    by (apply (Permutation_in _ Hperm); simpl; auto).
  simpl in Hsorted.
  inversion Hsorted as [|? ? Hbc Hab]; subst.
  inversion Hbc as [|? ? _ Hbc']; subst.
  inversion Hab as [|? ? Hab1 Hab2]; subst.
  inversion Hab2 as [|? ? Hac _]; subst.
  inversion Hbc' as [|? ? Hbc1 _]; subst.
  unfold ranks_before in Hab1, Hac, Hbc1. simpl in Hab1, Hac, Hbc1.
  simpl in Ha, Hb, Hc.
  destruct Ha as [<- | [<- | [<- | []]]];
    destruct Hb as [<- | [<- | [<- | []]]];
    destruct Hc as [<- | [<- | [<- | []]]];
    try reflexivity; try lia;
    simpl in H1, H2, H3;
    repeat match goal with
           | H : _ \/ _ |- _ => destruct H
           | H : False |- _ => destruct H
           | H : ?x = ?y |- _ => subst x || subst y
           end; lia.
Qed.

(** C5: [get_previous_rounds] changes nothing and returns the stored rounds
    with status completed, each exactly as often as it is stored and no
    other round, each with [vote_count] the length of its vote list (0 when
    the key is absent), ordered so that every round comes before all rounds
    with fewer votes and before all rounds with as many votes and a lower
    or equal round number. When the completed rounds are #1 with 3 votes,
    #2 with 1 vote and #3 with 3 votes, in whatever order they are stored,
    the result is #3, #1, #2. *)
Theorem get_previous_rounds_ranked (w : World) :
  (exists res,
      run get_previous_rounds w = (inr res, w) /\
      Permutation (map Previous.round res)
                  (find_all (by_status (lit "completed"))
                            (rounds_collection w)) /\
      (forall r, In r (map Previous.round res) <->
                 In r (rounds_collection w) /\
                 Round.status r = lit "completed") /\
      Forall (fun x => Previous.vote_count x
                       = len (get_votes (Round.votes (Previous.round x))))
             res /\
      StronglySorted ranks_before res) /\
  (forall r1 r2 r3,
      Permutation (find_all (by_status (lit "completed"))
                            (rounds_collection w)) [r1; r2; r3] ->
      Round.round_number r1 = 1%Z -> len (get_votes (Round.votes r1)) = 3 ->
      Round.round_number r2 = 2%Z -> len (get_votes (Round.votes r2)) = 1 ->
      Round.round_number r3 = 3%Z -> len (get_votes (Round.votes r3)) = 3 ->
      fst (run get_previous_rounds w)
      = inr [Previous.mk r3 3; Previous.mk r1 3; Previous.mk r2 1]).
Proof.
  destruct (get_previous_rounds_spec w) as (res & Hrun & Hperm & Hcount & Hs).
  split.
  - exists res.
    split; [exact Hrun | split; [exact Hperm | split; [| now split]]].
    intros r. split.
    + intros Hr. apply (Permutation_in _ Hperm) in Hr.
      apply filter_In in Hr. destruct Hr as [Hr Hst].
      split; [exact Hr | now apply by_status_true].
    + intros [Hr Hst]. apply (Permutation_in _ (Permutation_sym Hperm)).
      apply filter_In. split; [exact Hr | now apply by_status_true].
  - intros r1 r2 r3 Hthree N1 V1 N2 V2 N3 V3. rewrite Hrun. simpl.
    rewrite (annotated_again Hcount) in Hs |- *.
    assert (E : map Previous.round res = [r3; r1; r2]).
    { apply ranking_of_three; auto.
      now apply Permutation_trans with (2 := Hthree). }
    rewrite E. unfold annotate. simpl. now rewrite V1, V2, V3.
Qed.

Lemma get_previous_rounds_ranked_witness :
  fst (run get_previous_rounds ranking_world)
  = inr [Previous.mk (finished_round 3%N 3%Z 3) 3;
         Previous.mk (finished_round 1%N 1%Z 3) 3;
         Previous.mk (finished_round 2%N 2%Z 1) 1].
Proof.
  apply (proj2 (get_previous_rounds_ranked ranking_world)
               (finished_round 1%N 1%Z 3) (finished_round 2%N 2%Z 1)
               (finished_round 3%N 3%Z 3));
    reflexivity.
Defined.

(** ** At most one active round *)

Lemma by_status_set_total_chars (s : str) (n : nat) (r : Round.t) :
  by_status s (set_total_chars n r) = by_status s r.
Proof. reflexivity. Qed.

Lemma by_status_set_round_votes (s : str) (vs : list Vote.t) (r : Round.t) :
  by_status s (set_round_votes vs r) = by_status s r.
Proof. reflexivity. Qed.

Lemma by_status_push_round_vote (s : str) (v : Vote.t) (r : Round.t) :
  by_status s (push_round_vote v r) = by_status s r.
Proof. reflexivity. Qed.

(** What each operation does to the rounds collection: it keeps the number
    of rounds and the number of active ones, or it is [get_current_round]
    on a store without active round and appends an active round. *)
Lemma step_rounds (o : Op) (w : World) :
  (len (rounds_collection (step o w)) = len (rounds_collection w) /\
   len (active_rounds (step o w)) = len (active_rounds w)) \/
  ((exists now, o = GetCurrentRound now) /\
   active_rounds w = [] /\
   exists r, rounds_collection (step o w) = rounds_collection w ++ [r] /\
             Round.status r = lit "active" /\
             active_rounds (step o w) = [r]).
Proof.
  destruct o as [now | u now word r | u now wid | u now rid | | r | r];
    unfold step, exec, active_rounds.
  - rewrite get_current_round_run.
    destruct (find_first _ _) as [r|] eqn:E; [left; auto |].
    right. split; [now exists now |].
    apply find_first_none_find_all in E. split; [exact E |].
    cbv zeta. eexists. split; [reflexivity |]. split; [reflexivity |].
    simpl. rewrite find_all_app, E. reflexivity.
  - left. rewrite add_word_run. cbv zeta.
    destruct (CHAR_LIMIT <? _); simpl; auto.
    split; [apply update_first_length |].
    now apply find_all_update_length.
  - left. rewrite vote_for_word_run.
    destruct (find_first _ _) as [word|]; auto.
    destruct (str_in _ _); auto.
  - left. rewrite vote_for_song_run.
    destruct (find_first _ _) as [round|]; auto.
    destruct (Round.generated_songs round); auto.
    destruct (Round.votes round) as [vs|].
    + destruct (str_in _ _); simpl; auto.
      split; [apply update_first_length |].
      now apply find_all_update_length.
    + simpl. split; [now rewrite !update_first_length |].
      now rewrite !find_all_update_length.
  - left. auto.
  - left. auto.
  - left. unfold run, get_current_prompt, get_current_round_words, bind,
      words_find. simpl.
    destruct (sort_votes_desc _); auto.
Qed.

Lemma reachable_ops (w0 w : World) (ops : list Op) :
  reachable w0 w -> reachable w0 (fold_left (fun w o => step o w) ops w).
Proof.
  revert w. induction ops as [|o ops IH]; simpl; intros w Hw; auto.
  apply IH. now constructor.
Qed.

(** C7: in every world reached, by operations run one after the other, from
    a world with at most one active round, at most one round is active. No
    operation removes a round, and the only one that adds a round is
    [get_current_round] when no round is active: it adds one round, which
    is then the active one. *)
Theorem at_most_one_active_invariant (w0 w : World) :
  at_most_one_active w0 ->
  reachable w0 w ->
  at_most_one_active w /\
  forall o,
    len (rounds_collection (step o w)) = len (rounds_collection w) \/
    ((exists now, o = GetCurrentRound now) /\
     active_rounds w = [] /\
     exists r, rounds_collection (step o w) = rounds_collection w ++ [r] /\
               active_rounds (step o w) = [r]).
Proof.
  intros H0 Hreach. split.
  - induction Hreach as [|w o _ IH]; [exact H0 |].
    unfold at_most_one_active in *.
    destruct (step_rounds o w) as [[_ E] | (_ & _ & r & _ & _ & E)];
      rewrite E; [exact IH | unfold len; simpl; lia].
  - intros o.
    destruct (step_rounds o w) as [[E _] | (Ho & Hnone & r & E & _ & Ea)];
      [left; exact E | right].
    split; [exact Ho | split; [exact Hnone |]]. now exists r.
Qed.

Lemma at_most_one_active_invariant_witness :
  at_most_one_active fire_gold_world.
Proof.
  apply (at_most_one_active_invariant (w0 := empty_world)).
  - unfold at_most_one_active. vm_compute. apply le_S, le_n.
  - change fire_gold_world
      with (fold_left (fun w o => step o w) fire_gold_ops
                      (step (GetCurrentRound 1000%Z) empty_world)).
    apply reachable_ops. constructor. constructor.
Defined.

(** ** The words of a round and the prompt *)

Lemma get_current_round_words_run (r : Round.t) (w : World) :
  run (get_current_round_words r) w
  = (inr (sort_votes_desc (round_words (Round._id r) w)), w).
Proof. reflexivity. Qed.

(** The prompt is the base prompt followed by the texts of
    [get_current_round_words], in that order, joined by single spaces. *)
Lemma get_current_prompt_run (r : Round.t) (w : World) :
  run (get_current_prompt r) w
  = (inr (match sort_votes_desc (round_words (Round._id r) w) with
          | [] => BASE_PROMPT
          | ws => BASE_PROMPT ++ join (lit " ") (map Word.word ws)
          end),
     w).
Proof.
  unfold run, get_current_prompt, get_current_round_words, bind, words_find,
    round_words. simpl.
  destruct (sort_votes_desc _); reflexivity.
Qed.

(** C8, evaluated where it fails: in round #1 "fire" has 2 votes and "gold"
    has 5, and the two voters of "fire" have greater session ids than the
    five voters of "gold". [get_current_round_words] returns "fire" before
    "gold", which is not descending by vote count, and [get_current_prompt]
    renders the base prompt followed by "fire gold". No other descending
    order on the [votes] field exists for these two documents, so the
    outcome does not depend on how equal keys are placed. *)
Theorem get_current_round_words_not_by_vote_count :
  exists fire gold,
    fst (run (get_current_round_words first_round) fire_gold_world)
    = inr [fire; gold] /\
    Word.word fire = lit "fire" /\ len (get_votes (Word.votes fire)) = 2 /\
    Word.word gold = lit "gold" /\ len (get_votes (Word.votes gold)) = 5 /\
    ~ by_vote_count_desc fire gold /\
    fst (run (get_current_prompt first_round) fire_gold_world)
    = inr (BASE_PROMPT ++ lit "fire gold") /\
    forall ws,
      Permutation ws (round_words 1%N fire_gold_world) ->
      StronglySorted
        (fun a b => sort_key_leb (votes_sort_key_desc (Word.votes b))
                                 (votes_sort_key_desc (Word.votes a)) = true)
        ws ->
      ws = [fire; gold].
Proof.
  pose (ws0 := round_words 1%N fire_gold_world).
  assert (E0 : round_words 1%N fire_gold_world = ws0) by reflexivity.
  vm_compute in ws0.
  destruct ws0 as [|fire [|gold [|]]] eqn:Ews; try discriminate.
  injection Ews as Efire Egold.
  exists fire, gold.
  split; [rewrite get_current_round_words_run; subst; reflexivity |].
  split; [subst; reflexivity |]. split; [subst; reflexivity |].
  split; [subst; reflexivity |]. split; [subst; reflexivity |].
  split.
  { unfold by_vote_count_desc. subst. vm_compute. lia. }
  split; [rewrite get_current_prompt_run; subst; reflexivity |].
  intros ws Hperm Hsorted. rewrite E0 in Hperm.
  pose proof (Permutation_length Hperm) as Hlen.
  destruct ws as [|a [|b [|]]]; try discriminate. clear Hlen.
  assert (Ha : In a [fire; gold])
    by (apply (Permutation_in _ Hperm); simpl; auto).
  assert (Hb : In b [fire; gold])
    by (apply (Permutation_in _ Hperm); simpl; auto).
  apply Permutation_sym in Hperm.
  assert (Hf : In fire [a; b])
    by (apply (Permutation_in _ Hperm); simpl; auto).
  assert (Hg : In gold [a; b])
    by (apply (Permutation_in _ Hperm); simpl; auto).
  inversion Hsorted as [|? ? _ Hab]; subst.
  inversion Hab as [|? ? Hkey _]. clear Hab Hsorted Hperm.
  simpl in Ha, Hb, Hf, Hg.
  destruct Ha as [Ha | [Ha | []]]; destruct Hb as [Hb | [Hb | []]];
    subst; try reflexivity.
  - destruct Hg as [Hg | [Hg | []]]; discriminate Hg.
  - vm_compute in Hkey. discriminate Hkey.
  - destruct Hf as [Hf | [Hf | []]]; discriminate Hf.
Qed.

(** ** Votes across operations *)

Lemma str_in_app_l (u : str) (vs : list Vote.t) (v : Vote.t) :
  str_in u (voters vs) = true -> str_in u (voters (vs ++ [v])) = true.
Proof.
  unfold str_in, voters. rewrite map_app, existsb_app. intros ->. reflexivity.
Qed.

Lemma str_in_In (u : str) (us : list str) :
  str_in u us = true <-> In u us.
Proof.
  unfold str_in. rewrite existsb_exists. split.
  - intros (x & Hx & E). apply str_eqb_eq in E. now subst.
  - intros H. exists u. split; [exact H | apply str_eqb_refl].
Qed.

(** A round update of the operations, applied to the first round with some
    id, keeps a voter of the round stored under [rid] a voter: the update
    only adds to the votes, or it replaces absent votes by the empty list. *)
Lemma has_voted_update (u : str) (rid rid' : ObjectId)
      (upd : Round.t -> Round.t) (ws : list Word.t) (n : ObjectId)
      (w : World) :
  (forall r, Round._id (upd r) = Round._id r) ->
  (forall r, find_first (round_by_id rid') (rounds_collection w) = Some r ->
             str_in u (voters (get_votes (Round.votes r))) = true ->
             str_in u (voters (get_votes (Round.votes (upd r)))) = true) ->
  has_voted u rid w ->
  has_voted u rid
            (mkWorld ws (update_first (round_by_id rid') upd
                                      (rounds_collection w)) n).
Proof.
  intros Hid Hkeep (r & Hfind & Hin). unfold has_voted. simpl.
  destruct (find_first_update_cases (round_by_id rid) (round_by_id rid') upd
              (rounds_collection w)) with (d := r)
    as (r' & Hf' & [-> | [Hq ->]]); auto.
  - intros x. unfold round_by_id. now rewrite Hid.
  - exists r. auto.
  - exists (upd r). auto.
Qed.

Lemma has_voted_step (u : str) (rid : ObjectId) (o : Op) (w : World) :
  has_voted u rid w -> has_voted u rid (step o w).
Proof.
  intros Hv.
  destruct o as [now | u' now word r | u' now wid | u' now rid' | | r | r];
    unfold step, exec.
  - rewrite get_current_round_run.
    destruct (find_first _ _) as [r|]; [exact Hv |].
    cbv zeta. simpl. destruct Hv as (r & Hfind & Hin).
    exists r. simpl. split; [| exact Hin]. now apply find_first_app_some.
  - rewrite add_word_run. cbv zeta.
    destruct (CHAR_LIMIT <? _); [exact Hv |]. simpl.
    apply has_voted_update; auto.
  - rewrite vote_for_word_run.
    destruct (find_first _ _) as [word|]; [| exact Hv].
    destruct (str_in _ _); [exact Hv |]. simpl.
    destruct Hv as (r & Hfind & Hin). exists r. auto.
  - rewrite vote_for_song_run.
    destruct (find_first (round_by_id rid') _) as [round|] eqn:Ef;
      [| exact Hv].
    destruct (Round.generated_songs round); [| exact Hv].
    destruct (Round.votes round) as [vs|] eqn:Ev.
    + destruct (str_in u' (voters vs)); [exact Hv |]. simpl.
      apply has_voted_update; auto.
      intros r0 _ H0. simpl. now apply str_in_app_l.
    + simpl.
      apply has_voted_update
        with (w := mkWorld (words_collection w)
                     (update_first (round_by_id rid') (set_round_votes [])
                                   (rounds_collection w)) (next_oid w)); auto.
      * intros r0 _ H0. simpl. now apply str_in_app_l.
      * apply has_voted_update; auto.
        intros r0 Hr0 H0. rewrite Ef in Hr0. injection Hr0 as <-.
        rewrite Ev in H0. discriminate.
  - exact Hv.
  - exact Hv.
  - unfold run, get_current_prompt, get_current_round_words, bind,
      words_find. simpl.
    destruct (sort_votes_desc _); exact Hv.
Qed.

Lemma has_voted_reachable (u : str) (rid : ObjectId) (w w' : World) :
  has_voted u rid w -> reachable w w' -> has_voted u rid w'.
Proof.
  intros Hv Hreach. induction Hreach; [exact Hv |].
  now apply has_voted_step.
Qed.

(** The words keep at most one vote per user under every operation. *)
Lemma words_voted_once_step (o : Op) (w : World) :
  words_voted_once w -> words_voted_once (step o w).
Proof.
  intros Hw.
  destruct o as [now | u now word r | u now wid | u now rid | | r | r];
    unfold step, exec.
  - rewrite get_current_round_run.
    destruct (find_first _ _); exact Hw.
  - rewrite add_word_run. cbv zeta.
    destruct (CHAR_LIMIT <? _); [exact Hw |].
    intros d Hd. simpl in Hd. apply in_app_or in Hd.
    destruct Hd as [Hd | [<- | []]]; [now apply Hw | constructor].
  - rewrite vote_for_word_run.
    destruct (find_first _ _) as [word|] eqn:Ef; [| exact Hw].
    destruct (str_in _ _) eqn:Hin; [exact Hw |].
    intros d Hd. simpl in Hd. apply update_first_in in Hd.
    destruct Hd as [Hd | (d0 & Hd0 & ->)]; [now apply Hw |].
    rewrite Ef in Hd0. injection Hd0 as <-. simpl.
    unfold voters. rewrite map_app. simpl.
    apply NoDup_app; [| constructor; [intros [] | constructor] |].
    + apply find_first_some in Ef. now apply Hw.
    + intros x Hx [<- | []].
      apply str_in_In in Hx. unfold voters in Hin. congruence.
  - rewrite vote_for_song_run.
    destruct (find_first _ _) as [round|]; [| exact Hw].
    destruct (Round.generated_songs round); [| exact Hw].
    destruct (Round.votes round) as [vs|]; [| exact Hw].
    destruct (str_in _ _); exact Hw.
  - exact Hw.
  - exact Hw.
  - unfold run, get_current_prompt, get_current_round_words, bind,
      words_find. simpl.
    destruct (sort_votes_desc _); exact Hw.
Qed.

Lemma words_voted_once_reachable (w0 w : World) :
  words_voted_once w0 -> reachable w0 w -> words_voted_once w.
Proof.
  intros H0 Hreach. induction Hreach; [exact H0 |].
  now apply words_voted_once_step.
Qed.

Lemma votes_of_nodup (u : str) (vs : list Vote.t) :
  NoDup (voters vs) -> len (votes_of u vs) <= 1.
Proof.
  unfold voters, votes_of, len.
  induction vs as [|v vs IH]; simpl; [lia |].
  intros Hnd. inversion Hnd as [|? ? Hnotin Hnd']; subst.
  destruct (str_eqb (Vote.user_id v) u) eqn:E; [| now apply IH].
  apply str_eqb_eq in E. simpl.
  assert (Hnone : filter (fun v0 => str_eqb (Vote.user_id v0) u) vs = []).
  { apply str_in_votes_of_false.
    destruct (str_in u (voters vs)) eqn:Hin; [| reflexivity].
    apply str_in_In in Hin. unfold voters in Hin. congruence. }
  rewrite Hnone. simpl. lia.
Qed.

(** C4: [vote_for_song] returns false and changes nothing when no round
    has the id or the round has no generated songs. On a round with songs
    where the user is not yet a voter it returns true, and the stored round
    then has the old votes (none when the key was absent) followed by the
    user's vote, words and other rounds being as before. Where the user is
    already a voter it returns false and changes nothing. After the call
    that returned true, every later call for the same user and round
    returns false and changes nothing, whatever operations ran in between;
    in particular, called any number of times in a row, it returns true the
    first time and false every other time. *)
Theorem vote_for_song_once
        (u : str) (now : datetime) (rid : ObjectId) (w : World) :
  (find_first (round_by_id rid) (rounds_collection w) = None ->
   run (vote_for_song u now rid) w = (inr false, w)) /\
  (forall round,
      find_first (round_by_id rid) (rounds_collection w) = Some round ->
      Round.generated_songs round = None ->
      run (vote_for_song u now rid) w = (inr false, w)) /\
  (forall round,
      find_first (round_by_id rid) (rounds_collection w) = Some round ->
      Round.generated_songs round <> None ->
      let vs := get_votes (Round.votes round) in
      let w1 := exec (vote_for_song u now rid) w in
      (str_in u (voters vs) = true ->
       run (vote_for_song u now rid) w = (inr false, w)) /\
      (str_in u (voters vs) = false ->
       fst (run (vote_for_song u now rid) w) = inr true /\
       find_first (round_by_id rid) (rounds_collection w1)
       = Some (set_round_votes (vs ++ [Vote.mk u now]) round) /\
       (forall rid', rid' <> rid ->
          find_first (round_by_id rid') (rounds_collection w1)
          = find_first (round_by_id rid') (rounds_collection w)) /\
       words_collection w1 = words_collection w /\
       (forall w' now',
           reachable w1 w' ->
           run (vote_for_song u now' rid) w' = (inr false, w')) /\
       forall nows,
         fst (call_each (fun t => vote_for_song u t rid) (now :: nows) w)
         = inr true :: repeat (inr false) (len nows))).
Proof.
  split; [| split].
  - intros H. now rewrite vote_for_song_run, H.
  - intros round H Hs. now rewrite vote_for_song_run, H, Hs.
  - intros round Hfind Hsongs vs w1. split.
    + now apply vote_for_song_again with (round := round).
    + intros Hin.
      destruct (vote_for_song_first u now rid w Hfind Hsongs Hin)
        as (rounds' & Hrun & Hf1 & _ & Hother & _).
      assert (E : w1 = mkWorld (words_collection w) rounds' (next_oid w))
        by (unfold w1, exec; now rewrite Hrun).
      rewrite E, Hrun. simpl.
      split; [reflexivity | split; [exact Hf1 | split; [exact Hother |]]].
      split; [reflexivity |]. split.
      { intros w' now' Hreach.
        assert (Hv : has_voted u rid w').
        { apply has_voted_reachable
            with (w := mkWorld (words_collection w) rounds' (next_oid w));
            [| exact Hreach].
          eexists. split; [exact Hf1 |]. simpl. apply str_in_after_vote. }
        destruct Hv as (r' & Hr' & Hin').
        now apply vote_for_song_again with (round := r'). }
      intros nows. rewrite Hrun.
      rewrite vote_for_song_again_each
        with (round := set_round_votes (vs ++ [Vote.mk u now]) round).
      * reflexivity.
      * exact Hf1.
      * simpl. apply str_in_after_vote.
Qed.

(** Three calls in a row on a round without [votes] key; an unknown id; the
    active round, which has no songs; a user who has voted. *)
Lemma vote_for_song_once_witness :
  let u := hex_user "b00000000000000000000002" in
  fst (call_each (fun t => vote_for_song u t 1%N) [2000; 2001; 2002]%Z
                 unvoted_world)
  = [inr true; inr false; inr false] /\
  run (vote_for_song u 2000%Z 99%N) ranking_world
  = (inr false, ranking_world) /\
  run (vote_for_song u 2000%Z 4%N) ranking_world
  = (inr false, ranking_world) /\
  run (vote_for_song (hex_user "a00000000000000000000001") 2000%Z 1%N)
      ranking_world
  = (inr false, ranking_world).
Proof.
  intros u.
  pose proof (vote_for_song_once u 2000%Z 1%N unvoted_world)
    as (_ & _ & Hfirst).
  pose proof (vote_for_song_once u 2000%Z 99%N ranking_world)
    as (Hmissing & _).
  pose proof (vote_for_song_once u 2000%Z 4%N ranking_world)
    as (_ & Hnosongs & _).
  pose proof (vote_for_song_once (hex_user "a00000000000000000000001")
                                 2000%Z 1%N ranking_world)
    as (_ & _ & Hvoted).
  split; [| split; [| split]].
  - assert (Hs : Round.generated_songs unvoted_round <> None)
      by discriminate.
    destruct (Hfirst unvoted_round eq_refl Hs) as (_ & Hno).
    destruct (Hno eq_refl) as (_ & _ & _ & _ & _ & Hcalls).
    exact (Hcalls [2001; 2002]%Z).
  - apply Hmissing. reflexivity.
  - apply (Hnosongs (Round.mk 4%N 4%Z (lit "active") 1000%Z 68 None None));
      reflexivity.
  - assert (Hs : Round.generated_songs (finished_round 1%N 1%Z 3) <> None)
      by discriminate.
    destruct (Hvoted (finished_round 1%N 1%Z 3) eq_refl Hs) as (Hyes & _).
    apply Hyes. reflexivity.
Defined.

(** * Further properties *)

(** ** The prompt budget *)

Lemma total_len_app (ws ws' : list str) :
  total_len (ws ++ ws') = total_len ws + total_len ws'.
Proof.
  induction ws as [|x ws IH]; simpl; [reflexivity |]. rewrite IH. lia.
Qed.

Lemma total_len_perm (ws ws' : list str) :
  Permutation ws ws' -> total_len ws = total_len ws'.
Proof.
  induction 1; simpl; lia.
Qed.

Lemma calculate_prompt_length_sum (ws : list str) :
  calculate_prompt_length ws
  = len BASE_PROMPT + total_len ws + pred (len ws).
Proof.
  destruct ws as [|w ws].
  - reflexivity.
  - rewrite calculate_prompt_length_cons. reflexivity.
Qed.

(** X1: a further word costs its own length, plus one separator unless it
    is the first word of the round; the length is never below the 68
    characters of the base prompt. *)
Theorem calculate_prompt_length_append (ws : list str) (w : str) :
  calculate_prompt_length (ws ++ [w])
  = calculate_prompt_length ws + len w
    + match ws with [] => 0 | _ => 1 end /\
  68 <= calculate_prompt_length ws.
Proof.
  rewrite !calculate_prompt_length_sum, total_len_app, len_app.
  change (len BASE_PROMPT) with 68. simpl.
  destruct ws; simpl; lia.
Qed.

Lemma prompt_length_permutation (ws ws' : list str) :
  Permutation ws ws' ->
  calculate_prompt_length ws = calculate_prompt_length ws'.
Proof.
  intros H. rewrite !calculate_prompt_length_sum.
  rewrite (total_len_perm H). unfold len.
  now rewrite (Permutation_length H).
Qed.

(** X2: the prompt length does not depend on the order of the words. *)
Theorem calculate_prompt_length_permutation (ws ws' : list str) :
  Permutation ws ws' ->
  calculate_prompt_length ws = calculate_prompt_length ws'.
Proof.
  intros H. rewrite !calculate_prompt_length_sum.
  rewrite (total_len_perm H). unfold len.
  now rewrite (Permutation_length H).
Qed.

Lemma calculate_prompt_length_permutation_witness :
  calculate_prompt_length [lit "fire"; lit "gold"; lit "ice"]
  = calculate_prompt_length [lit "ice"; lit "fire"; lit "gold"].
Proof.
  apply calculate_prompt_length_permutation.
  apply Permutation_sym.
  apply (Permutation_cons_append [lit "fire"; lit "gold"] (lit "ice")).
Defined.

Lemma sort_votes_desc_perm (ws : list Word.t) :
  Permutation (sort_votes_desc ws) ws.
Proof. apply stable_sort_perm. Qed.

Lemma prompt_length_of_round (r : Round.t) (w : World) :
  exists p,
    run (get_current_prompt r) w = (inr p, w) /\
    len p = calculate_prompt_length (round_texts (Round._id r) w).
Proof.
  rewrite get_current_prompt_run. eexists. split; [reflexivity |].
  unfold round_texts.
  pose proof (sort_votes_desc_perm (round_words (Round._id r) w)) as Hperm.
  rewrite <- (prompt_length_permutation
                (Permutation_map Word.word Hperm)).
  destruct (sort_votes_desc _); reflexivity.
Qed.

(** X3: the text [get_current_prompt] renders for a round has the length
    [calculate_prompt_length] gives for the words stored for that round,
    in whatever order the words are listed; rendering changes nothing. *)
Theorem get_current_prompt_length (r : Round.t) (w : World) :
  exists p,
    run (get_current_prompt r) w = (inr p, w) /\
    len p = calculate_prompt_length (round_texts (Round._id r) w).
Proof.
  rewrite get_current_prompt_run. eexists. split; [reflexivity |].
  unfold round_texts.
  pose proof (sort_votes_desc_perm (round_words (Round._id r) w)) as Hperm.
  rewrite <- (prompt_length_permutation
                (Permutation_map Word.word Hperm)).
  destruct (sort_votes_desc _); reflexivity.
Qed.

(** Updates that keep text and round of a word keep the texts of every
    round. *)
Lemma round_texts_update (rid : ObjectId) (q : Word.t -> bool)
      (upd : Word.t -> Word.t) (c : list Word.t) :
  (forall d, Word.word (upd d) = Word.word d) ->
  (forall d, Word.round_id (upd d) = Word.round_id d) ->
  map Word.word (find_all (by_round_id rid) (update_first q upd c))
  = map Word.word (find_all (by_round_id rid) c).
Proof.
  intros Hw Hr. unfold find_all.
  induction c as [|x c IH]; simpl; [reflexivity |].
  destruct (q x); simpl.
  - assert (E : by_round_id rid (upd x) = by_round_id rid x)
      by (unfold by_round_id; now rewrite Hr).
    rewrite E. destruct (by_round_id rid x); simpl; [now rewrite Hw |].
    reflexivity.
  - destruct (by_round_id rid x); simpl; now rewrite IH.
Qed.

Lemma round_texts_insert (rid : ObjectId) (ws : list Word.t) (doc : Word.t)
      (rs : list Round.t) (n : ObjectId) :
  round_texts rid (mkWorld (ws ++ [doc]) rs n)
  = map Word.word (find_all (by_round_id rid) ws)
    ++ (if (Word.round_id doc =? rid)%N then [Word.word doc] else []).
Proof.
  unfold round_texts, round_words. simpl. rewrite find_all_app, map_app.
  simpl. unfold by_round_id. destruct (_ =? _)%N; reflexivity.
Qed.

(** What an operation does to the texts of a round: nothing, or it is
    [add_word] on that round, within the ceiling, and the text is added at
    the end. *)
Lemma step_round_texts (o : Op) (w : World) (rid : ObjectId) :
  round_texts rid (step o w) = round_texts rid w \/
  exists u now word r,
    o = AddWord u now word r /\ rid = Round._id r /\
    round_texts rid (step o w) = round_texts rid w ++ [word] /\
    calculate_prompt_length (round_texts rid w ++ [word]) <= CHAR_LIMIT.
Proof.
  destruct o as [now | u now word r | u now wid | u now rid' | | r | r];
    unfold step, exec.
  - left. rewrite get_current_round_run.
    destruct (find_first _ _); reflexivity.
  - rewrite add_word_run. cbv zeta.
    destruct (CHAR_LIMIT <? _) eqn:E; [left; reflexivity |].
    apply Nat.ltb_ge in E. simpl. rewrite round_texts_insert. simpl.
    destruct (Round._id r =? rid)%N eqn:Eid.
    + apply N.eqb_eq in Eid. subst rid. right.
      exists u, now, word, r.
      split; [reflexivity | split; [reflexivity | split; [reflexivity |]]].
      exact E.
    + left. now rewrite app_nil_r.
  - left. rewrite vote_for_word_run.
    destruct (find_first _ _) as [word|]; [| reflexivity].
    destruct (str_in _ _); [reflexivity |].
    unfold round_texts, round_words. simpl.
    now apply round_texts_update.
  - left. rewrite vote_for_song_run.
    destruct (find_first _ _) as [round|]; [| reflexivity].
    destruct (Round.generated_songs round); [| reflexivity].
    destruct (Round.votes round) as [vs|]; [| reflexivity].
    destruct (str_in _ _); reflexivity.
  - left. reflexivity.
  - left. reflexivity.
  - left. rewrite get_current_prompt_run. reflexivity.
Qed.

(** X4: if the words stored for every round fit the ceiling, they still do
    after any operations run one after the other, whatever round
    [add_word] is given; then every rendered prompt has at most 200
    characters and no round has more than 133 words. *)
Theorem prompt_within_limit_invariant (w0 w : World) :
  prompt_within_limit w0 ->
  reachable w0 w ->
  prompt_within_limit w /\
  (forall r p, fst (run (get_current_prompt r) w) = inr p ->
               len p <= CHAR_LIMIT) /\
  (forall rid, len (round_words rid w) <= 133).
Proof.
  intros H0 Hreach.
  assert (Hlim : prompt_within_limit w).
  { induction Hreach as [|w o _ IH]; [exact H0 |].
    intros rid.
    destruct (step_round_texts o w rid)
      as [-> | (u & now & word & r & _ & _ & -> & Hle)]; auto. }
  split; [exact Hlim | split].
  - intros r p Hp.
    destruct (prompt_length_of_round r w) as (p' & Hrun & Hlen).
    rewrite Hrun in Hp. injection Hp as <-. rewrite Hlen. apply Hlim.
  - intros rid. specialize (Hlim rid).
    rewrite calculate_prompt_length_sum in Hlim.
    unfold round_texts in Hlim. unfold len in *.
    rewrite length_map in Hlim.
    change (Datatypes.length BASE_PROMPT) with 68 in Hlim.
    unfold CHAR_LIMIT in Hlim. lia.
Qed.

Lemma prompt_within_limit_invariant_witness :
  prompt_within_limit fire_gold_world /\
  len (round_words 1%N fire_gold_world) <= 133.
Proof.
  assert (H0 : prompt_within_limit empty_world).
  { intros rid. apply Nat.leb_le. reflexivity. }
  assert (Hreach : reachable empty_world fire_gold_world).
  { change fire_gold_world
      with (fold_left (fun w o => step o w) fire_gold_ops
                      (step (GetCurrentRound 1000%Z) empty_world)).
    apply reachable_ops. constructor. constructor. }
  destruct (prompt_within_limit_invariant H0 Hreach) as (Hlim & _ & Hcount).
  split; [exact Hlim | apply Hcount].
Defined.

(** ** What one operation does *)

Section UpdateFacts.
Context {D : Type}.
Implicit Types (q : D -> bool) (upd : D -> D) (c : list D).

Lemma update_first_ext q upd upd' c d :
  find_first q c = Some d -> upd d = upd' d ->
  update_first q upd c = update_first q upd' c.
Proof.
  unfold find_first. induction c as [|x c IH]; simpl; [discriminate |].
  destruct (q x).
  - intros [= <-] E. now rewrite E.
  - intros H E. now rewrite IH.
Qed.

Lemma update_first_twice q upd upd' c :
  (forall d, q (upd d) = q d) ->
  update_first q upd' (update_first q upd c)
  = update_first q (fun d => upd' (upd d)) c.
Proof.
  intros Hq. induction c as [|x c IH]; simpl; [reflexivity |].
  destruct (q x) eqn:E; simpl.
  - now rewrite Hq, E.
  - now rewrite E, IH.
Qed.

Lemma update_first_map {B : Type} (f : D -> B) q upd c :
  (forall d, f (upd d) = f d) ->
  map f (update_first q upd c) = map f c.
Proof.
  intros Hf. induction c as [|x c IH]; simpl; [reflexivity |].
  destruct (q x); simpl; [now rewrite Hf | now rewrite IH].
Qed.

Lemma update_first_has q upd c d :
  find_first q c = Some d -> In (upd d) (update_first q upd c).
Proof.
  unfold find_first. induction c as [|x c IH]; simpl; [discriminate |].
  destruct (q x).
  - intros [= <-]. now left.
  - intros H. right. auto.
Qed.

Lemma unique_by_key {B : Type} (f : D -> B) c a b :
  NoDup (map f c) -> In a c -> In b c -> f a = f b -> a = b.
Proof.
  induction c as [|x c IH]; simpl; [intros _ [] |].
  intros Hnd Ha Hb E. inversion Hnd as [|? ? Hx Hnd']; subst.
  destruct Ha as [<- | Ha], Hb as [<- | Hb]; auto.
  - destruct Hx. rewrite E. now apply in_map.
  - destruct Hx. rewrite <- E. now apply in_map.
Qed.
End UpdateFacts.

Lemma step_effect_step (o : Op) (w : World) : step_effect o w (step o w).
Proof.
  destruct o as [now | u now word r | u now wid | u now rid | | r | r];
    unfold step, exec.
  - rewrite get_current_round_run.
    destruct (find_first _ _) as [r|] eqn:E; [constructor |].
    now apply eff_new_round with (now := now).
  - rewrite add_word_run. cbv zeta.
    destruct (CHAR_LIMIT <? _) eqn:E; [constructor |].
    apply Nat.ltb_ge in E. simpl. now apply eff_new_word.
  - rewrite vote_for_word_run.
    destruct (find_first _ _) as [word|] eqn:Ef; [| constructor].
    destruct (str_in _ _) eqn:Hin; [constructor |].
    now apply eff_word_vote with (word := word).
  - rewrite vote_for_song_run.
    destruct (find_first _ _) as [round|] eqn:Ef; [| constructor].
    destruct (Round.generated_songs round) as [songs|] eqn:Es;
      [| constructor].
    assert (Hs : Round.generated_songs round <> None) by congruence.
    destruct (Round.votes round) as [vs|] eqn:Ev.
    + destruct (str_in u (voters vs)) eqn:Hin; [constructor |]. simpl.
      rewrite (update_first_ext (round_by_id rid)
                 (push_round_vote (Vote.mk u now))
                 (set_round_votes (vs ++ [Vote.mk u now]))
                 (rounds_collection w) Ef)
        by (unfold push_round_vote; now rewrite Ev).
      replace vs with (get_votes (Round.votes round)) by now rewrite Ev.
      apply eff_round_vote; auto. now rewrite Ev.
    + simpl. rewrite update_first_twice by reflexivity.
      rewrite (update_first_ext (round_by_id rid)
                 (fun d => push_round_vote (Vote.mk u now)
                                           (set_round_votes [] d))
                 (set_round_votes ([] ++ [Vote.mk u now]))
                 (rounds_collection w) Ef) by reflexivity.
      replace (@nil Vote.t) with (get_votes (Round.votes round)) at 1
        by now rewrite Ev.
      apply eff_round_vote; auto. now rewrite Ev.
  - constructor.
  - constructor.
  - rewrite get_current_prompt_run. constructor.
Qed.

(** ** Rounds are found again *)

(** X5: [get_current_round] called a second time returns the round the
    first call returned, which is active, and changes nothing, whether the
    first call found the round or created it. *)
Theorem get_current_round_twice (now now' : datetime) (w : World) :
  exists r,
    fst (run (get_current_round now) w) = inr r /\
    Round.status r = lit "active" /\
    run (get_current_round now') (exec (get_current_round now) w)
    = (inr r, exec (get_current_round now) w).
Proof.
  unfold exec. rewrite get_current_round_run.
  destruct (find_first _ _) as [r|] eqn:E.
  - exists r. simpl. split; [reflexivity |]. split.
    + apply find_first_some in E. now apply by_status_true.
    + rewrite get_current_round_run. now rewrite E.
  - cbv zeta. eexists. simpl. split; [reflexivity |].
    split; [reflexivity |].
    rewrite get_current_round_run. simpl.
    now rewrite (find_first_app_none _ _ _ E).
Qed.

(** ** Round numbers *)

Lemma numbering_succ (n : nat) :
  numbering (S n) = numbering n ++ [(Z.of_nat n + 1)%Z].
Proof. unfold numbering. rewrite seq_S, map_app. reflexivity. Qed.

Lemma numbering_nodup (n : nat) : NoDup (numbering n).
Proof.
  unfold numbering. apply NoDup_map_NoDup_ForallPairs; [| apply seq_NoDup].
  intros i j _ _ H. lia.
Qed.

Lemma rounds_numbered_step (o : Op) (w : World) :
  rounds_numbered w -> rounds_numbered (step o w).
Proof.
  intros Hn. unfold rounds_numbered in *.
  destruct (step_effect_step o w); simpl; auto.
  - rewrite map_app, len_app, Hn. simpl.
    replace (len (rounds_collection w) + 1)
      with (S (len (rounds_collection w))) by lia.
    now rewrite numbering_succ.
  - rewrite update_first_map by reflexivity.
    now rewrite update_first_length.
  - rewrite update_first_map by reflexivity.
    now rewrite update_first_length.
Qed.

(** X6: if the stored rounds are numbered 1, 2, ... in stored order, they
    still are after any operations run one after the other; in particular
    no two stored rounds share a round number. *)
Theorem rounds_numbered_invariant (w0 w : World) :
  rounds_numbered w0 ->
  reachable w0 w ->
  rounds_numbered w /\
  NoDup (map Round.round_number (rounds_collection w)).
Proof.
  intros H0 Hreach.
  assert (Hn : rounds_numbered w).
  { induction Hreach; [exact H0 | now apply rounds_numbered_step]. }
  split; [exact Hn |]. rewrite Hn. apply numbering_nodup.
Qed.

Lemma rounds_numbered_invariant_witness :
  rounds_numbered (step (GetCurrentRound 3000%Z) unvoted_world) /\
  NoDup (map Round.round_number
             (rounds_collection
                (step (GetCurrentRound 3000%Z) unvoted_world))).
Proof.
  apply (rounds_numbered_invariant (w0 := unvoted_world)).
  - reflexivity.
  - constructor. constructor.
Defined.

(** ** One vote per user *)

Lemma nodup_voters_after_vote (u : str) (now : datetime)
      (vs : list Vote.t) :
  NoDup (voters vs) ->
  str_in u (voters vs) = false ->
  NoDup (voters (vs ++ [Vote.mk u now])).
Proof.
  intros Hnd Hin. unfold voters. rewrite map_app. simpl.
  apply NoDup_app; [exact Hnd | constructor; [intros [] | constructor] |].
  intros x Hx [<- | []].
  apply str_in_In in Hx. unfold voters in Hin. congruence.
Qed.

Lemma rounds_voted_once_step (o : Op) (w : World) :
  rounds_voted_once w -> rounds_voted_once (step o w).
Proof.
  intros Hr.
  destruct (step_effect_step o w) as [| now _ _ | u now word r _ _
                                      | u now wid word _ _ _
                                      | u now rid round _ Hfind _ Hin];
    [exact Hr | | | exact Hr |]; intros r' Hr'; simpl in Hr'.
  - apply in_app_or in Hr'.
    destruct Hr' as [Hr' | [<- | []]]; [now apply Hr | constructor].
  - apply update_first_in in Hr'.
    destruct Hr' as [Hr' | (d0 & Hd0 & ->)]; [now apply Hr |].
    apply find_first_some in Hd0. simpl. apply Hr. tauto.
  - apply update_first_in in Hr'.
    destruct Hr' as [Hr' | (d0 & Hd0 & ->)]; [now apply Hr |].
    simpl. apply nodup_voters_after_vote; [| exact Hin].
    apply Hr. apply find_first_some in Hfind. tauto.
Qed.

(** X7: if no word and no round has two votes of one user, none has after
    any operations run one after the other. *)
Theorem votes_once_invariant (w0 w : World) :
  words_voted_once w0 ->
  rounds_voted_once w0 ->
  reachable w0 w ->
  words_voted_once w /\ rounds_voted_once w /\
  (forall d u, In d (words_collection w) ->
               len (votes_of u (get_votes (Word.votes d))) <= 1) /\
  (forall r u, In r (rounds_collection w) ->
               len (votes_of u (get_votes (Round.votes r))) <= 1).
Proof.
  intros Hw0 Hr0 Hreach.
  assert (Hr : rounds_voted_once w).
  { induction Hreach; [exact Hr0 | now apply rounds_voted_once_step]. }
  assert (Hw : words_voted_once w)
    by now apply words_voted_once_reachable with (w0 := w0).
  split; [exact Hw | split; [exact Hr | split]].
  - intros d u Hd. apply votes_of_nodup. now apply Hw.
  - intros r u Hd. apply votes_of_nodup. now apply Hr.
Qed.

Lemma votes_once_invariant_witness :
  words_voted_once fire_gold_world /\ rounds_voted_once fire_gold_world.
Proof.
  assert (Hreach : reachable empty_world fire_gold_world).
  { change fire_gold_world
      with (fold_left (fun w o => step o w) fire_gold_ops
                      (step (GetCurrentRound 1000%Z) empty_world)).
    apply reachable_ops. constructor. constructor. }
  assert (Hw0 : words_voted_once empty_world) by (intros d []).
  assert (Hr0 : rounds_voted_once empty_world) by (intros r []).
  destruct (votes_once_invariant Hw0 Hr0 Hreach) as (Hw & Hr & _).
  split; [exact Hw | exact Hr].
Defined.

(** ** A consistent store *)

Lemma find_first_exists {D : Type} (q : D -> bool) (c : list D) (d : D) :
  In d c -> q d = true -> exists d0, find_first q c = Some d0.
Proof.
  intros Hd Hq. unfold find_first.
  destruct (find q c) as [d0|] eqn:E; [now exists d0 |].
  rewrite (find_none _ _ E d Hd) in Hq. discriminate.
Qed.

Lemma same_id_after_update (q : Round.t -> bool) (upd : Round.t -> Round.t)
      (rs : list Round.t) (r0 : Round.t) :
  (forall r, Round._id (upd r) = Round._id r) ->
  In r0 rs ->
  exists r1, In r1 (update_first q upd rs) /\ Round._id r1 = Round._id r0.
Proof.
  intros Hid Hr0.
  assert (H : In (Round._id r0) (map Round._id (update_first q upd rs))).
  { rewrite update_first_map by exact Hid. now apply in_map. }
  apply in_map_iff in H. destruct H as (r1 & E & Hr1). now exists r1.
Qed.

Lemma id_before_update (q : Round.t -> bool) (upd : Round.t -> Round.t)
      (rs : list Round.t) (r1 : Round.t) :
  (forall r, Round._id (upd r) = Round._id r) ->
  In r1 (update_first q upd rs) ->
  exists r0, In r0 rs /\ Round._id r0 = Round._id r1.
Proof.
  intros Hid Hr1.
  assert (H : In (Round._id r1) (map Round._id rs)).
  { rewrite <- (update_first_map Round._id q upd rs Hid). now apply in_map. }
  apply in_map_iff in H. destruct H as (r0 & E & Hr0). now exists r0.
Qed.

Lemma nodup_ids_fresh {D : Type} (f : D -> ObjectId) (c : list D) (d : D)
      (n : ObjectId) :
  NoDup (map f c) ->
  (forall x, In x c -> (f x < n)%N) ->
  f d = n ->
  NoDup (map f (c ++ [d])).
Proof.
  intros Hnd Hlt Hd. rewrite map_app. simpl.
  apply NoDup_app; [exact Hnd | constructor; [intros [] | constructor] |].
  intros a Ha [E | []]. apply in_map_iff in Ha.
  destruct Ha as (x & <- & Hx). specialize (Hlt x Hx). lia.
Qed.

Lemma no_words_of_unused_round (w : World) :
  store_ok w -> round_texts (next_oid w) w = [].
Proof.
  intros Hok. unfold round_texts, round_words, find_all.
  assert (H : forall c, (forall d, In d c -> In d (words_collection w)) ->
                        filter (by_round_id (next_oid w)) c = []).
  { induction c as [|d c IH]; intros Hc; simpl; [reflexivity |].
    destruct (words_have_round Hok d) as (r & Hr & E);
      [apply Hc; now left |].
    pose proof (round_ids_used Hok r Hr) as Hlt.
    unfold by_round_id. rewrite <- E.
    destruct (N.eqb_spec (Round._id r) (next_oid w)) as [E' | _];
      [lia |].
    apply IH. intros x Hx. apply Hc. now right. }
  rewrite H; auto.
Qed.

Lemma store_ok_step (o : Op) (w : World) :
  store_ok w -> op_ok o w -> store_ok (step o w).
Proof.
  intros Hok Hop.
  destruct (step_effect_step o w) as [| now _ _ | u now word r Ho Hle
                                      | u now wid word _ Hfind _
                                      | u now rid round _ Hfind _ _];
    [exact Hok | | | |].
  - (* a new round *)
    constructor; simpl.
    + apply nodup_ids_fresh with (n := next_oid w); auto.
      * apply (round_ids_unique Hok).
      * apply (round_ids_used Hok).
    + apply (word_ids_unique Hok).
    + intros r Hr. apply in_app_or in Hr.
      destruct Hr as [Hr | [<- | []]]; simpl; [| lia].
      pose proof (round_ids_used Hok r Hr). lia.
    + intros d Hd. pose proof (word_ids_used Hok d Hd). lia.
    + intros d Hd. destruct (words_have_round Hok d Hd) as (r & Hr & E).
      exists r. split; [apply in_or_app; now left | exact E].
    + intros r Hr. apply in_app_or in Hr.
      destruct Hr as [Hr | [<- | []]].
      * apply (total_chars_cached Hok r Hr).
      * simpl. change (round_texts (next_oid w) _)
          with (round_texts (next_oid w) w).
        now rewrite no_words_of_unused_round.
  - (* a new word *)
    subst o. simpl in Hop. destruct Hop as (r0 & Hr0 & Eid).
    set (rid := Round._id r) in *.
    set (total := calculate_prompt_length (round_texts rid w ++ [word])).
    constructor; simpl.
    + rewrite update_first_map by reflexivity.
      apply (round_ids_unique Hok).
    + apply nodup_ids_fresh with (n := next_oid w); auto.
      * apply (word_ids_unique Hok).
      * apply (word_ids_used Hok).
    + intros r1 Hr1. apply id_before_update in Hr1; [| reflexivity].
      destruct Hr1 as (r2 & Hr2 & <-).
      pose proof (round_ids_used Hok r2 Hr2). lia.
    + intros d Hd. apply in_app_or in Hd.
      destruct Hd as [Hd | [<- | []]]; simpl; [| lia].
      pose proof (word_ids_used Hok d Hd). lia.
    + intros d Hd. apply in_app_or in Hd.
      destruct Hd as [Hd | [<- | []]]; simpl.
      * destruct (words_have_round Hok d Hd) as (r1 & Hr1 & E).
        rewrite <- E. now apply same_id_after_update.
      * rewrite <- Eid. now apply same_id_after_update.
    + intros r1 Hr1.
      assert (Hcase : (Round._id r1 = rid /\
                       Round.total_chars r1 = total) \/
                      (Round._id r1 <> rid /\ In r1 (rounds_collection w))).
      { pose proof Hr1 as Hr1'. apply update_first_in in Hr1'.
        destruct Hr1' as [Hold | (d0 & Hd0 & ->)].
        - destruct (N.eq_dec (Round._id r1) rid) as [E | E]; [| now right].
          left. split; [exact E |].
          destruct (find_first_exists (round_by_id rid)
                      (rounds_collection w) r1 Hold) as (d0 & Hd0).
          { unfold round_by_id. now apply N.eqb_eq. }
          assert (E1 : r1 = set_total_chars total d0).
          { apply unique_by_key
              with (f := Round._id)
                   (c := update_first (round_by_id rid)
                                      (set_total_chars total)
                                      (rounds_collection w)).
            - rewrite update_first_map by reflexivity.
              apply (round_ids_unique Hok).
            - exact Hr1.
            - now apply update_first_has.
            - simpl. apply find_first_some in Hd0.
              destruct Hd0 as [_ Hq]. unfold round_by_id in Hq.
              apply N.eqb_eq in Hq. congruence. }
          rewrite E1. reflexivity.
        - left. apply find_first_some in Hd0. destruct Hd0 as [_ Hq].
          unfold round_by_id in Hq. apply N.eqb_eq in Hq.
          split; [exact Hq | reflexivity]. }
      rewrite round_texts_insert. simpl.
      destruct Hcase as [[E Ht] | [E Hold]].
      * rewrite E, N.eqb_refl. exact Ht.
      * destruct (N.eqb_spec rid (Round._id r1)) as [E' | _];
          [congruence |].
        rewrite app_nil_r. apply (total_chars_cached Hok r1 Hold).
  - (* a vote for a word *)
    constructor; simpl.
    + apply (round_ids_unique Hok).
    + rewrite update_first_map by reflexivity.
      apply (word_ids_unique Hok).
    + apply (round_ids_used Hok).
    + intros d Hd. apply update_first_in in Hd.
      destruct Hd as [Hd | (d0 & Hd0 & ->)].
      * apply (word_ids_used Hok d Hd).
      * apply find_first_some in Hd0. simpl.
        apply (word_ids_used Hok d0). tauto.
    + intros d Hd. apply update_first_in in Hd.
      destruct Hd as [Hd | (d0 & Hd0 & ->)].
      * apply (words_have_round Hok d Hd).
      * apply find_first_some in Hd0. simpl.
        apply (words_have_round Hok d0). tauto.
    + intros r Hr. unfold round_texts, round_words. simpl.
      rewrite round_texts_update by reflexivity.
      apply (total_chars_cached Hok r Hr).
  - (* a vote for a round *)
    constructor; simpl.
    + rewrite update_first_map by reflexivity.
      apply (round_ids_unique Hok).
    + apply (word_ids_unique Hok).
    + intros r1 Hr1. apply id_before_update in Hr1; [| reflexivity].
      destruct Hr1 as (r2 & Hr2 & <-). apply (round_ids_used Hok r2 Hr2).
    + apply (word_ids_used Hok).
    + intros d Hd. destruct (words_have_round Hok d Hd) as (r1 & Hr1 & E).
      rewrite <- E. now apply same_id_after_update.
    + intros r1 Hr1. apply update_first_in in Hr1.
      destruct Hr1 as [Hr1 | (d0 & Hd0 & ->)].
      * apply (total_chars_cached Hok r1 Hr1).
      * apply find_first_some in Hd0. simpl.
        apply (total_chars_cached Hok d0). tauto.
Qed.

Lemma store_ok_empty : store_ok empty_world.
Proof.
  constructor; simpl; try constructor; intros x [].
Qed.

Lemma fire_world_reachable_ok : reachable_ok empty_world fire_world.
Proof.
  change fire_world
    with (step (AddWord (hex_user "a00000000000000000000001") 1010%Z
                        (lit "fire") first_round)
               (step (GetCurrentRound 1000%Z) empty_world)).
  constructor.
  - constructor; [constructor | exact I].
  - exists first_round. split; [now left | reflexivity].
Qed.

Lemma store_ok_reachable (w0 w : World) :
  store_ok w0 -> reachable_ok w0 w -> store_ok w.
Proof.
  intros H0 Hreach. induction Hreach; [exact H0 |].
  now apply store_ok_step.
Qed.

(** X8: a store in which ids are unique and below the generator, every
    word belongs to a stored round and every round's [total_chars] is the
    prompt length of its stored words stays such a store under any
    operations run one after the other, provided [add_word] is given a
    round of the store. *)
Theorem store_ok_invariant (w0 w : World) :
  store_ok w0 -> reachable_ok w0 w -> store_ok w.
Proof.
  intros H0 Hreach. induction Hreach as [|w o _ IH Hop]; [exact H0 |].
  apply store_ok_step; [exact IH | exact Hop].
Qed.

Lemma store_ok_invariant_witness : store_ok fire_world.
Proof.
  apply (store_ok_invariant store_ok_empty fire_world_reachable_ok).
Defined.

(** X9: in such a store the prompt rendered for a stored round has exactly
    the round's cached [total_chars] as length. *)
Theorem total_chars_is_prompt_length (w0 w : World) (r : Round.t) :
  store_ok w0 ->
  reachable_ok w0 w ->
  In r (rounds_collection w) ->
  exists p,
    run (get_current_prompt r) w = (inr p, w) /\
    len p = Round.total_chars r.
Proof.
  intros H0 Hreach Hr.
  pose proof (store_ok_reachable H0 Hreach) as Hok.
  destruct (prompt_length_of_round r w) as (p & Hrun & Hlen).
  exists p. split; [exact Hrun |].
  rewrite Hlen. symmetry. apply (total_chars_cached Hok r Hr).
Qed.

Lemma total_chars_is_prompt_length_witness :
  exists p,
    run (get_current_prompt (set_total_chars 72 first_round)) fire_world
    = (inr p, fire_world) /\
    len p = 72.
Proof.
  apply (@total_chars_is_prompt_length
           empty_world fire_world (set_total_chars 72 first_round)
           store_ok_empty fire_world_reachable_ok).
  left. reflexivity.
Defined.

(** ** The order of the words of a round *)

Lemma str_compare_refl (a : str) : str_compare a a = Eq.
Proof.
  induction a as [|x a IH]; simpl; [reflexivity |].
  now rewrite N.compare_refl.
Qed.

Lemma str_compare_eq (a b : str) : str_compare a b = Eq -> a = b.
Proof.
  revert b. induction a as [|x a IH]; intros [|y b]; simpl;
    try discriminate; [reflexivity |].
  destruct (N.compare_spec x y) as [Exy | Exy | Exy]; try discriminate.
  intros Hab. subst. f_equal. now apply IH.
Qed.

Lemma str_compare_antisym (a b : str) :
  str_compare b a = CompOpp (str_compare a b).
Proof.
  revert b. induction a as [|x a IH]; intros [|y b]; simpl;
    try reflexivity.
  rewrite (N.compare_antisym x y).
  destruct (N.compare x y); simpl; auto.
Qed.

Lemma str_compare_trans (c : comparison) (a b d : str) :
  str_compare a b = c -> str_compare b d = c -> str_compare a d = c.
Proof.
  revert b d. induction a as [|x a IH]; intros [|y b] [|z d]; simpl;
    try congruence.
  intros H1 H2.
  destruct (N.compare_spec x y) as [Exy | Exy | Exy];
    destruct (N.compare_spec y z) as [Eyz | Eyz | Eyz];
    destruct (N.compare_spec x z) as [Exz | Exz | Exz];
    try (exfalso; lia); try congruence.
  now apply IH with b.
Qed.

Lemma vote_compare_antisym (a b : Vote.t) :
  vote_compare b a = CompOpp (vote_compare a b).
Proof.
  unfold vote_compare.
  rewrite (str_compare_antisym (Vote.user_id a) (Vote.user_id b)).
  destruct (str_compare _ _); simpl; auto.
  apply Z.compare_antisym.
Qed.

(** [vote_compare a b <> Gt] is a total preorder. *)
Lemma vote_compare_le_trans (a b d : Vote.t) :
  vote_compare a b <> Gt -> vote_compare b d <> Gt ->
  vote_compare a d <> Gt.
Proof.
  unfold vote_compare.
  destruct (str_compare (Vote.user_id a) (Vote.user_id b)) eqn:E1;
    destruct (str_compare (Vote.user_id b) (Vote.user_id d)) eqn:E2;
    try congruence.
  - apply str_compare_eq in E1. apply str_compare_eq in E2.
    rewrite E1, E2, str_compare_refl.
    destruct (Z.compare_spec (Vote.timestamp a) (Vote.timestamp b));
      destruct (Z.compare_spec (Vote.timestamp b) (Vote.timestamp d));
      destruct (Z.compare_spec (Vote.timestamp a) (Vote.timestamp d));
      try congruence; intros; exfalso; lia.
  - apply str_compare_eq in E1. rewrite E1, E2. congruence.
  - apply str_compare_eq in E2. rewrite <- E2, E1. congruence.
  - rewrite (@str_compare_trans Lt _ _ _ E1 E2). congruence.
Qed.

Lemma sort_key_leb_total (k1 k2 : SortKey) :
  sort_key_leb k1 k2 = false -> sort_key_leb k2 k1 = true.
Proof.
  destruct k1 as [| | a], k2 as [| | b]; simpl; try congruence.
  rewrite (vote_compare_antisym a b).
  destruct (vote_compare a b); simpl; congruence.
Qed.

Lemma sort_key_leb_trans (k1 k2 k3 : SortKey) :
  sort_key_leb k1 k2 = true -> sort_key_leb k2 k3 = true ->
  sort_key_leb k1 k3 = true.
Proof.
  destruct k1 as [| | a], k2 as [| | b], k3 as [| | d]; simpl;
    try congruence.
  intros H1 H2.
  assert (H : vote_compare a d <> Gt).
  { apply vote_compare_le_trans with b.
    - destruct (vote_compare a b); congruence.
    - destruct (vote_compare b d); congruence. }
  destruct (vote_compare a d); congruence.
Qed.

Lemma sort_votes_desc_sorted (ws : list Word.t) :
  StronglySorted key_desc (sort_votes_desc ws).
Proof.
  unfold sort_votes_desc. apply stable_sort_sorted.
  - intros x y. apply sort_key_leb_total.
  - intros x y z H1 H2. now apply sort_key_leb_trans with (word_key y).
Qed.

Lemma key_desc_empty_last (a b : Word.t) :
  key_desc a b -> Word.votes a = Some [] -> Word.votes b = Some [].
Proof.
  unfold key_desc, word_key. intros H Ha. rewrite Ha in H. simpl in H.
  destruct (Word.votes b) as [[|v vs]|]; simpl in H;
    [reflexivity | discriminate | discriminate].
Qed.

(** X10: [get_current_round_words] changes nothing and returns the stored
    words of the round, each exactly as often as it is stored and no word
    of another round, in descending order of the store's key on [votes];
    in particular every word listed after a word with an empty vote list
    has an empty vote list too, so words that got a vote come before the
    words without votes. *)
Theorem get_current_round_words_listing (r : Round.t) (w : World) :
  exists ws,
    run (get_current_round_words r) w = (inr ws, w) /\
    Permutation ws (round_words (Round._id r) w) /\
    (forall d, In d ws <->
               In d (words_collection w) /\
               Word.round_id d = Round._id r) /\
    StronglySorted key_desc ws /\
    (forall before a after,
        ws = before ++ a :: after ->
        Word.votes a = Some [] ->
        Forall (fun b => Word.votes b = Some []) after).
Proof.
  rewrite get_current_round_words_run. eexists. split; [reflexivity |].
  pose proof (sort_votes_desc_perm (round_words (Round._id r) w)) as Hperm.
  pose proof (sort_votes_desc_sorted (round_words (Round._id r) w)) as Hs.
  split; [exact Hperm | split; [| split; [exact Hs |]]].
  - intros d. split.
    + intros Hd. apply (Permutation_in _ Hperm) in Hd.
      apply filter_In in Hd. destruct Hd as [Hd Hq].
      split; [exact Hd | now apply N.eqb_eq].
    + intros [Hd Hq]. apply (Permutation_in _ (Permutation_sym Hperm)).
      apply filter_In. split; [exact Hd | now apply N.eqb_eq].
  - intros before a after E Ha. rewrite E in Hs.
    clear E. induction before as [|x before IH]; simpl in Hs.
    + inversion Hs as [|? ? _ Hall]; subst.
      eapply Forall_impl; [| exact Hall].
      intros b Hb. now apply key_desc_empty_last with a.
    + inversion Hs; subst. auto.
Qed.

(** ** The page: what a run does to the store *)

Section ChangesRules.
Context {A B : Type}.
Variable P : World -> Prop.

Lemma changes_ret (a : A) (s : Screen) : changes_at (ui_ret a) s P.
Proof. left. reflexivity. Qed.

Lemma changes_halt (h : Halt) (s : Screen) : changes_at (@halt A h) s P.
Proof. left. reflexivity. Qed.

Lemma changes_bind (m : UI A) (k : A -> UI B) (s : Screen) :
  changes_at m s P ->
  (forall a s1, m s = (inr a, s1) -> world s1 = world s ->
                changes_at (k a) s1 P) ->
  changes_at (ui_bind m k) s P.
Proof.
  unfold changes_at, ui_bind. intros Hm Hk.
  destruct (m s) as [[h | a] s1] eqn:E; simpl in *.
  - destruct Hm as [Hm | [Hm _]]; [now left |].
    right. split; [exact Hm | now exists h].
  - destruct Hm as [Hm | [_ [h Hh]]]; [| discriminate].
    destruct (Hk a s1 eq_refl Hm) as [H1 | [H1 H2]].
    + left. congruence.
    + right. auto.
Qed.
End ChangesRules.

Lemma changes_show (P : World -> Prop) (wd : Widget) (s : Screen) :
  changes_at (show wd) s P.
Proof. left. reflexivity. Qed.

Lemma show_run (wd : Widget) (s s1 : Screen) (a : unit) :
  show wd s = (inr a, s1) -> world s1 = world s.
Proof. unfold show. intros [= _ <-]. reflexivity. Qed.


Lemma changes_for_each {A : Type} (P : World -> Prop) (body : A -> UI unit)
      (xs : list A) (s : Screen) :
  (forall x s1, In x xs -> world s1 = world s ->
                changes_at (body x) s1 P) ->
  changes_at (for_each xs body) s P.
Proof.
  revert s. induction xs as [|x xs IH]; intros s Hbody; simpl.
  - apply changes_ret.
  - apply changes_bind.
    + apply Hbody; [now left | reflexivity].
    + intros _ s1 _ Hw. apply IH.
      intros y s2 Hy Hw2. apply Hbody; [now right | congruence].
Qed.

Lemma changes_weaken {A : Type} (P Q : World -> Prop) (m : UI A)
      (s : Screen) :
  (forall w, P w -> Q w) -> changes_at m s P -> changes_at m s Q.
Proof.
  intros HPQ [H | [H1 H2]]; [now left | right; auto].
Qed.

(** The run of a row: the store is kept, or the button of the word was
    pressed by a user who had not voted for it, [vote_for_word] ran and
    the run ended. *)
Lemma word_row_changes (u : str) (t : Times) (inp : Inputs) (word : Word.t)
      (s : Screen) :
  changes_at (word_row u t inp word) s
    (fun w' =>
       button inp (WordKey (Word._id word)) = true /\
       str_in u (voters (get_votes (Word.votes word))) = false /\
       w' = exec (vote_for_word u (t_word_vote t) (Word._id word))
                 (world s)).
Proof.
  unfold word_row.
  apply changes_bind; [apply changes_show |]. intros _ s1 _ Hw1.
  apply changes_bind; [apply changes_show |]. intros _ s2 _ Hw2.
  apply changes_bind.
  - destruct (str_in u _) eqn:Hin; [apply changes_show |].
    apply changes_bind; [apply changes_show |]. intros _ s3 _ Hw3.
    destruct (button inp _) eqn:Hb; [| apply changes_ret].
    right. unfold ui_bind, lift, halt, exec, run.
    replace (world s) with (world s3) by congruence.
    destruct (vote_for_word u (t_word_vote t) (Word._id word) (world s3))
      as [[e | a] w'] eqn:E; simpl; eauto.
  - intros _ s3 _ Hw3.
    destruct (Word.created_by word) as [creator|]; [| apply changes_ret].
    destruct (str_eqb creator u); [apply changes_show | apply changes_ret].
Qed.

Lemma lift_inr {A : Type} (m : M A) (s s1 : Screen) (a : A) :
  lift m s = (inr a, s1) ->
  m (world s) = (inr a, world s1) /\ shown s1 = shown s.
Proof.
  unfold lift. destruct (m (world s)) as [[e | a'] w']; [discriminate |].
  intros [= <- <-]. auto.
Qed.

Lemma changes_lift_reads {A : Type} (P : World -> Prop) (m : M A)
      (s : Screen) :
  (forall w, snd (m w) = w) -> changes_at (lift m) s P.
Proof.
  intros Hm. left. unfold lift. specialize (Hm (world s)).
  destruct (m (world s)) as [[e | a] w']; simpl in *; congruence.
Qed.

Lemma song_block_changes (P : World -> Prop) (heading : string)
      (songs : list Song.t) (i : nat) (s : Screen) :
  changes_at (song_block heading songs i) s P.
Proof.
  unfold song_block.
  apply changes_bind; [apply changes_show |]. intros _ s1 _ _.
  apply changes_bind.
  { unfold song_at. destruct (nth_error songs i);
      [apply changes_ret | apply changes_halt]. }
  intros song s2 _ _. apply changes_bind.
  - destruct (Song.lyric song) as [[|c rest]|]; try apply changes_ret.
    apply changes_bind; [apply changes_show |]. intros. apply changes_show.
  - intros. destruct (Song.audio_url song) as [[|c rest]|];
      try apply changes_ret. apply changes_show.
Qed.

(** [vote_for_song] raises nothing, and a call that returns false has
    changed nothing. *)
Lemma vote_for_song_total (u : str) (now : datetime) (rid : ObjectId)
      (w : World) :
  exists b w',
    vote_for_song u now rid w = (inr b, w') /\ (b = false -> w' = w).
Proof.
  change (vote_for_song u now rid w) with (run (vote_for_song u now rid) w).
  rewrite vote_for_song_run.
  destruct (find_first _ _) as [round|]; [| now exists false, w].
  destruct (Round.generated_songs round); [| now exists false, w].
  destruct (Round.votes round) as [vs|].
  - destruct (str_in u (voters vs)); [now exists false, w |].
    eexists true, _. split; [reflexivity | discriminate].
  - eexists true, _. split; [reflexivity | discriminate].
Qed.

Lemma round_songs_changes (u : str) (t : Times) (inp : Inputs)
      (r : Round.t) (s : Screen) :
  changes_at
    (round_songs u t inp r (str_in u (voters (get_votes (Round.votes r)))))
    s
    (fun w' =>
       Round.generated_songs r <> None /\
       button inp (RoundKey (Round._id r)) = true /\
       str_in u (voters (get_votes (Round.votes r))) = false /\
       w' = exec (vote_for_song u (t_song_vote t) (Round._id r)) (world s)).
Proof.
  unfold round_songs.
  destruct (Round.generated_songs r) as [songs|] eqn:Es;
    [| apply changes_ret].
  apply changes_bind; [apply song_block_changes |]. intros _ s6 _ Hw6.
  apply changes_bind; [apply song_block_changes |]. intros _ s7 _ Hw7.
  destruct (str_in u _) eqn:Hin; simpl; [apply changes_show |].
  apply changes_bind; [apply changes_show |]. intros _ s8 _ Hw8.
  destruct (button inp _) eqn:Hb; [| apply changes_ret].
  assert (Hall : world s8 = world s) by congruence.
  unfold changes_at, ui_bind, lift, halt, ui_ret, exec, run.
  rewrite <- Hall.
  destruct (vote_for_song_total u (t_song_vote t) (Round._id r) (world s8))
    as (b & w' & Hrun & Hfalse).
  rewrite Hrun. destruct b; simpl.
  - right. split; [| now exists Rerun].
    split; [discriminate | split; [reflexivity | split; reflexivity]].
  - left. now apply Hfalse.
Qed.

(** The panel of a previous round: the store is kept, or the round has
    words and songs, its button was pressed by a user who had not voted
    for it, [vote_for_song] ran and the run ended. *)
Lemma round_panel_changes (u : str) (t : Times) (inp : Inputs)
      (round : Previous.t) (s : Screen) :
  changes_at (round_panel u t inp round) s
    (fun w' =>
       round_words (Round._id (Previous.round round)) (world s) <> [] /\
       Round.generated_songs (Previous.round round) <> None /\
       button inp (RoundKey (Round._id (Previous.round round))) = true /\
       str_in u (voters (get_votes (Round.votes (Previous.round round))))
       = false /\
       w' = exec (vote_for_song u (t_song_vote t)
                                (Round._id (Previous.round round)))
                 (world s)).
Proof.
  unfold round_panel. cbv zeta.
  apply changes_bind; [apply changes_show |]. intros _ s1 _ Hw1.
  apply changes_bind; [now apply changes_lift_reads |].
  intros ws s2 Hws Hw2. apply lift_inr in Hws. destruct Hws as [Hws _].
  unfold words_find in Hws. injection Hws as Hws _.
  destruct (sort_votes_desc ws) as [|d ds] eqn:Esort; [apply changes_show |].
  assert (Hne : round_words (Round._id (Previous.round round)) (world s)
                <> []).
  { unfold round_words. rewrite <- Hw1, Hws. intros E. rewrite E in Esort.
    discriminate. }
  apply changes_bind; [apply changes_show |]. intros _ s3 _ Hw3.
  apply changes_bind; [apply changes_show |]. intros _ s4 _ Hw4.
  apply changes_bind.
  { apply changes_for_each. intros. apply changes_show. }
  intros _ s5 _ Hw5.
  assert (H5 : world s5 = world s) by congruence.
  eapply changes_weaken; [| apply round_songs_changes].
  intros w' (Hs & Hb & Hin & Hw'). rewrite H5 in Hw'. auto 10.
Qed.

(** The form: the store is kept, or the form was submitted with a text
    that is not empty, [add_word] ran with that text and the run ended. *)
Lemma add_word_form_changes (u : str) (t : Times) (inp : Inputs)
      (r : Round.t) (s : Screen) :
  changes_at (add_word_form u t inp r) s
    (fun w' =>
       form_submit_button inp = true /\ text_input inp <> [] /\
       w' = exec (add_word u (t_word t) (text_input inp) r) (world s)).
Proof.
  unfold add_word_form. cbv zeta.
  apply changes_bind; [apply changes_show |]. intros _ s1 _ Hw1.
  apply changes_bind; [apply changes_show |]. intros _ s2 _ Hw2.
  apply changes_bind; [apply changes_show |]. intros _ s3 _ Hw3.
  destruct (form_submit_button inp) eqn:Hsub; simpl; [| apply changes_ret].
  destruct (text_input inp) as [|c rest] eqn:Htext; simpl;
    [apply changes_ret |].
  assert (Hall : world s3 = world s) by congruence.
  unfold changes_at, ui_bind, lift, halt, show, exec. rewrite <- Hall.
  change (add_word u (t_word t) (c :: rest) r (world s3))
    with (run (add_word u (t_word t) (c :: rest) r) (world s3)).
  rewrite add_word_run. cbv zeta.
  destruct (CHAR_LIMIT <? _); simpl.
  - left. reflexivity.
  - right. split; [| now exists Rerun].
    split; [reflexivity | split; [discriminate | reflexivity]].
Qed.

Lemma get_current_round_total (now : datetime) (w : World) :
  exists r, get_current_round now w
            = (inr r, exec (get_current_round now) w).
Proof.
  unfold exec.
  change (get_current_round now w) with (run (get_current_round now) w).
  rewrite get_current_round_run.
  destruct (find_first _ _) as [r|]; eexists; reflexivity.
Qed.

Lemma previous_rounds_members (w : World) (res : list Previous.t) :
  get_previous_rounds w = (inr res, w) ->
  forall x, In x res ->
            In (Previous.round x) (rounds_collection w) /\
            Round.status (Previous.round x) = lit "completed".
Proof.
  intros Hrun x Hx.
  destruct (get_previous_rounds_spec w) as (res' & Hrun' & Hperm & _).
  unfold run in Hrun'. rewrite Hrun in Hrun'. injection Hrun' as <-.
  assert (H : In (Previous.round x)
                 (find_all (by_status (lit "completed"))
                           (rounds_collection w))).
  { apply (Permutation_in _ Hperm). now apply in_map. }
  apply filter_In in H. destruct H as [H1 H2].
  split; [exact H1 | now apply by_status_true].
Qed.

(** The part of the script below [get_current_round()], for the round it
    returned: the store is kept, or exactly one of three calls changed it
    and the run ended. *)
Lemma page_body_changes (u : str) (t : Times) (inp : Inputs) (r : Round.t)
      (s : Screen) :
  changes_at (page_body u t inp r) s
    (fun w' =>
       (form_submit_button inp = true /\ text_input inp <> [] /\
        calculate_prompt_length (round_texts (Round._id r) (world s))
        < CHAR_LIMIT /\
        w' = exec (add_word u (t_word t) (text_input inp) r) (world s)) \/
       (exists word,
           In word (words_collection (world s)) /\
           Word.round_id word = Round._id r /\
           button inp (WordKey (Word._id word)) = true /\
           str_in u (voters (get_votes (Word.votes word))) = false /\
           w' = exec (vote_for_word u (t_word_vote t) (Word._id word))
                     (world s)) \/
       (exists round,
           In round (rounds_collection (world s)) /\
           Round.status round = lit "completed" /\
           round_words (Round._id round) (world s) <> [] /\
           Round.generated_songs round <> None /\
           button inp (RoundKey (Round._id round)) = true /\
           str_in u (voters (get_votes (Round.votes round))) = false /\
           w' = exec (vote_for_song u (t_song_vote t) (Round._id round))
                     (world s))).
Proof.
  unfold page_body, page_rest.
  apply changes_bind.
  { apply changes_lift_reads. intros w.
    change (get_current_prompt r w) with (run (get_current_prompt r) w).
    now rewrite get_current_prompt_run. }
  intros p s1 Hp Hw1. apply lift_inr in Hp. destruct Hp as [Hp _].
  assert (Hlen : len p
                 = calculate_prompt_length (round_texts (Round._id r)
                                                        (world s))).
  { destruct (prompt_length_of_round r (world s)) as (p' & Hrun & Hlen).
    unfold run in Hrun. rewrite Hrun in Hp. now injection Hp as <- _. }
  cbv zeta.
  apply changes_bind; [apply changes_show |]. intros _ s2 _ Hw2.
  apply changes_bind; [apply changes_show |]. intros _ s3 _ Hw3.
  apply changes_bind; [apply changes_show |]. intros _ s4 _ Hw4.
  apply changes_bind; [apply changes_show |]. intros _ s5 _ Hw5.
  assert (H5 : world s5 = world s) by congruence.
  apply changes_bind.
  { destruct (0 <? _)%Z eqn:Hrem; [| apply changes_ret].
    apply Z.ltb_lt in Hrem.
    eapply changes_weaken; [| apply add_word_form_changes].
    intros w' (Hsub & Htext & Hw'). left. rewrite H5 in Hw'.
    split; [exact Hsub | split; [exact Htext | split; [| exact Hw']]].
    rewrite <- Hlen. lia. }
  intros _ s6 _ Hw6.
  apply changes_bind; [apply changes_show |]. intros _ s7 _ Hw7.
  assert (H7 : world s7 = world s) by congruence.
  apply changes_bind; [now apply changes_lift_reads |].
  intros ws s8 Hws Hw8. apply lift_inr in Hws. destruct Hws as [Hws _].
  change (get_current_round_words r (world s7))
    with (run (get_current_round_words r) (world s7)) in Hws.
  rewrite get_current_round_words_run in Hws. injection Hws as Hws _.
  assert (H8 : world s8 = world s) by congruence.
  apply changes_bind.
  { apply changes_for_each. intros word s9 Hword Hw9.
    eapply changes_weaken; [| apply word_row_changes].
    intros w' (Hb & Hin & Hw'). right. left. exists word.
    rewrite Hw9, H8 in Hw'.
    rewrite <- Hws in Hword.
    apply (Permutation_in _ (sort_votes_desc_perm _)) in Hword.
    apply filter_In in Hword. destruct Hword as [Hd Hq].
    rewrite H7 in Hd. apply N.eqb_eq in Hq. auto 10. }
  intros _ s9 _ Hw9.
  apply changes_bind; [apply changes_show |]. intros _ s10 _ Hw10.
  apply changes_bind; [apply changes_show |]. intros _ s11 _ Hw11.
  assert (H11 : world s11 = world s) by congruence.
  apply changes_bind; [now apply changes_lift_reads |].
  intros prs s12 Hprs Hw12. apply lift_inr in Hprs.
  destruct Hprs as [Hprs _]. rewrite Hw12 in Hprs.
  pose proof (previous_rounds_members Hprs) as Hmem.
  apply changes_for_each. intros round s13 Hround Hw13.
  eapply changes_weaken; [| apply round_panel_changes].
  intros w' (Hne & Hs & Hb & Hin & Hw'). right. right.
  exists (Previous.round round).
  rewrite Hw13, Hw12, H11 in Hne, Hw'.
  destruct (Hmem round Hround) as [Hstored Hstatus].
  rewrite H11 in Hstored. auto 10.
Qed.

(** X11: a run of the page, whatever is typed and pressed, does to the
    store what [get_current_round] does and then at most one more thing,
    after which it ends at once: [add_word] with the typed text for the
    current round, only when the form was submitted with a non-empty text
    and the prompt was shorter than 200 characters; or [vote_for_word] for
    a word of the current round whose button was pressed, by a user not
    among its voters; or [vote_for_song] for a stored completed round that
    has words and songs and whose button was pressed, by a user not among
    its voters. *)
Theorem page_changes_once (u : str) (t : Times) (inp : Inputs) (w : World) :
  let w1 := exec (get_current_round (t_round t)) w in
  let done := load u t inp w in
  exists r,
    fst (run (get_current_round (t_round t)) w) = inr r /\
    (world (snd done) = w1 \/
     ((exists h, fst done = inl h) /\
      ((form_submit_button inp = true /\ text_input inp <> [] /\
        calculate_prompt_length (round_texts (Round._id r) w1) < CHAR_LIMIT /\
        world (snd done)
        = exec (add_word u (t_word t) (text_input inp) r) w1) \/
       (exists word,
           In word (words_collection w1) /\
           Word.round_id word = Round._id r /\
           button inp (WordKey (Word._id word)) = true /\
           str_in u (voters (get_votes (Word.votes word))) = false /\
           world (snd done)
           = exec (vote_for_word u (t_word_vote t) (Word._id word)) w1) \/
       (exists round,
           In round (rounds_collection w1) /\
           Round.status round = lit "completed" /\
           round_words (Round._id round) w1 <> [] /\
           Round.generated_songs round <> None /\
           button inp (RoundKey (Round._id round)) = true /\
           str_in u (voters (get_votes (Round.votes round))) = false /\
           world (snd done)
           = exec (vote_for_song u (t_song_vote t) (Round._id round))
                  w1)))).
Proof.
  intros w1 done.
  destruct (get_current_round_total (t_round t) w) as (r & Hr).
  exists r. split; [unfold run; now rewrite Hr |].
  assert (Hdone : done
                  = page_body u t inp r
                      (mkScreen w1
                         [st_title (MUSICAL_NOTE
                                    :: lit " Rap Freestyle Word Contributor")])).
  { unfold done, load, page, ui_bind, show, lift. simpl. now rewrite Hr. }
  rewrite Hdone.
  destruct (page_body_changes u t inp r
              (mkScreen w1
                 [st_title (MUSICAL_NOTE
                            :: lit " Rap Freestyle Word Contributor")]))
    as [Hkept | [Hchg Hend]].
  - left. exact Hkept.
  - right. split; [exact Hend | exact Hchg].
Qed.

(** ** The page: a plain load *)

Section EndsRules.
Context {A B : Type}.


End EndsRules.















(** ** The page and the invariants of the store *)

Lemma get_current_round_stored (now : datetime) (w : World) (r : Round.t)
      (w1 : World) :
  get_current_round now w = (inr r, w1) -> In r (rounds_collection w1).
Proof.
  change (get_current_round now w) with (run (get_current_round now) w).
  rewrite get_current_round_run.
  destruct (find_first _ _) as [r0|] eqn:E.
  - intros [= <- <-]. apply find_first_some in E. tauto.
  - cbv zeta. intros [= <- <-]. simpl. apply in_or_app. right. now left.
Qed.

(** A run of the page is [get_current_round] followed by one operation,
    with [add_word] given a stored round and a text that is not empty. *)
Lemma page_two_steps (u : str) (t : Times) (inp : Inputs) (w : World) :
  exists o,
    op_ok o (step (GetCurrentRound (t_round t)) w) /\
    (forall u' now word r, o = AddWord u' now word r -> word <> []) /\
    world (snd (load u t inp w))
    = step o (step (GetCurrentRound (t_round t)) w).
Proof.
  destruct (get_current_round_total (t_round t) w) as (r & Hr).
  pose proof (get_current_round_stored _ _ Hr) as Hstored.
  set (w1 := exec (get_current_round (t_round t)) w) in *.
  change (step (GetCurrentRound (t_round t)) w) with w1.
  assert (Hdone : load u t inp w
                  = page_body u t inp r
                      (mkScreen w1
                         [st_title (MUSICAL_NOTE
                                    :: lit " Rap Freestyle Word Contributor")])).
  { unfold load, page, ui_bind, show, lift. simpl. now rewrite Hr. }
  rewrite Hdone.
  destruct (page_body_changes u t inp r
              (mkScreen w1
                 [st_title (MUSICAL_NOTE
                            :: lit " Rap Freestyle Word Contributor")]))
    as [Hkept | [[Hadd | [Hword | Hsong]] _]]; simpl in *.
  - exists GetPreviousRounds.
    split; [exact I | split; [discriminate | exact Hkept]].
  - destruct Hadd as (_ & Htext & _ & Hw').
    exists (AddWord u (t_word t) (text_input inp) r). split; [| split].
    + exists r. auto.
    + intros u' now word r' [= _ _ <- _]. exact Htext.
    + exact Hw'.
  - destruct Hword as (word & _ & _ & _ & _ & Hw').
    exists (VoteForWord u (t_word_vote t) (Word._id word)).
    split; [exact I | split; [discriminate | exact Hw']].
  - destruct Hsong as (round & _ & _ & _ & _ & _ & _ & Hw').
    exists (VoteForSong u (t_song_vote t) (Round._id round)).
    split; [exact I | split; [discriminate | exact Hw']].
Qed.

Lemma at_most_one_active_step (o : Op) (w : World) :
  at_most_one_active w -> at_most_one_active (step o w).
Proof.
  unfold at_most_one_active. intros H.
  destruct (step_rounds o w) as [[_ E] | (_ & _ & r & _ & _ & E)];
    rewrite E; [exact H | unfold len; simpl; lia].
Qed.

Lemma prompt_within_limit_step (o : Op) (w : World) :
  prompt_within_limit w -> prompt_within_limit (step o w).
Proof.
  intros H rid.
  destruct (step_round_texts o w rid)
    as [-> | (u & now & word & r & _ & _ & -> & Hle)]; auto.
Qed.

Lemma words_have_text_step (o : Op) (w : World) :
  (forall u now word r, o = AddWord u now word r -> word <> []) ->
  words_have_text w -> words_have_text (step o w).
Proof.
  intros Ho Hw.
  destruct (step_effect_step o w) as [| now _ _ | u now word r Hadd _
                                      | u now wid word _ Hfind _
                                      | u now rid round _ _ _ _];
    try exact Hw; intros d Hd; simpl in Hd.
  - apply in_app_or in Hd. destruct Hd as [Hd | [<- | []]];
      [now apply Hw | simpl; now apply (Ho u now word r)].
  - apply update_first_in in Hd.
    destruct Hd as [Hd | (d0 & Hd0 & ->)]; [now apply Hw |].
    simpl. apply Hw. apply find_first_some in Hd0. tauto.
Qed.

(** X13: whatever is typed and pressed, a run of the page keeps each of
    these properties of the store: ids unique and every [total_chars]
    equal to the prompt length of the stored words; at most one active
    round; every round's words within the ceiling; at most one vote per
    user on a word and on a round; rounds numbered 1, 2, ... *)
Theorem page_keeps_invariants (u : str) (t : Times) (inp : Inputs)
        (w : World) :
  let w' := world (snd (load u t inp w)) in
  (store_ok w -> store_ok w') /\
  (at_most_one_active w -> at_most_one_active w') /\
  (prompt_within_limit w -> prompt_within_limit w') /\
  (words_voted_once w -> words_voted_once w') /\
  (rounds_voted_once w -> rounds_voted_once w') /\
  (rounds_numbered w -> rounds_numbered w').
Proof.
  intros w'. destruct (page_two_steps u t inp w) as (o & Hok & _ & Hw').
  unfold w'. rewrite Hw'.
  split; [| split; [| split; [| split; [| split]]]]; intros H.
  - apply store_ok_step; [| exact Hok]. now apply store_ok_step.
  - now repeat apply at_most_one_active_step.
  - now repeat apply prompt_within_limit_step.
  - now repeat apply words_voted_once_step.
  - now repeat apply rounds_voted_once_step.
  - now repeat apply rounds_numbered_step.
Qed.

Lemma page_keeps_invariants_witness :
  let w' := world (snd (load (hex_user "b00000000000000000000009") noon
                             (mkInputs (lit "ice") true (fun _ => false))
                             fire_world)) in
  store_ok w' /\ at_most_one_active w' /\ prompt_within_limit w' /\
  words_voted_once w' /\ rounds_voted_once w' /\ rounds_numbered w'.
Proof.
  intros w'.
  destruct (page_keeps_invariants
              (hex_user "b00000000000000000000009") noon
              (mkInputs (lit "ice") true (fun _ => false)) fire_world)
    as (H1 & H2 & H3 & H4 & H5 & H6).
  split; [| split; [| split; [| split; [| split]]]].
  - apply H1. apply (store_ok_reachable store_ok_empty).
    apply fire_world_reachable_ok.
  - apply H2. unfold at_most_one_active. apply Nat.leb_le. reflexivity.
  - apply H3. intros rid.
    change (round_texts rid fire_world)
      with (map Word.word (if (1 =? rid)%N then [fire_doc] else [])).
    destruct (1 =? rid)%N; apply Nat.leb_le; reflexivity.
  - apply H4. intros d [<- | []]. constructor.
  - apply H5. intros r [<- | []]. constructor.
  - apply H6. reflexivity.
Defined.

(** X14: a run of the page never stores a word with an empty text: if all
    stored words have a text before, they have after. [add_word] itself
    does not look at the text: called with the empty string on a round
    whose prompt is shorter than 200 characters, it stores it. *)
Theorem page_stores_no_empty_word (u : str) (t : Times) (inp : Inputs)
        (w : World) :
  (words_have_text w -> words_have_text (world (snd (load u t inp w)))) /\
  (forall now r,
      calculate_prompt_length (round_texts (Round._id r) w) < CHAR_LIMIT ->
      ~ words_have_text (exec (add_word u now [] r) w)).
Proof.
  split.
  - intros H. destruct (page_two_steps u t inp w) as (o & _ & Ho & Hw').
    rewrite Hw'. apply words_have_text_step; [exact Ho |].
    apply words_have_text_step; [discriminate | exact H].
  - intros now r Hlt Htext. unfold exec in Htext.
    rewrite add_word_run in Htext. cbv zeta in Htext.
    destruct (CHAR_LIMIT <? _) eqn:E in Htext.
    { apply Nat.ltb_lt in E.
      rewrite calculate_prompt_length_sum in Hlt, E.
      rewrite total_len_app, len_app in E.
      change (total_len [[]]) with 0 in E. unfold len at 3 in E.
      simpl in E.
      destruct (len (round_texts (Round._id r) w)); simpl in *; lia. }
    simpl in Htext.
    apply (Htext (Word.mk (next_oid w) [] (Some []) (Some now) (Some u)
                          (Round._id r))); [| reflexivity].
    simpl. apply in_or_app. right. now left.
Qed.

Lemma page_stores_no_empty_word_witness :
  words_have_text
    (world (snd (load (hex_user "b00000000000000000000009") noon
                      (mkInputs [] true (fun _ => false)) fire_world))) /\
  ~ words_have_text
      (exec (add_word (hex_user "b00000000000000000000009") 5001%Z []
                      first_round) fire_world).
Proof.
  destruct (page_stores_no_empty_word
              (hex_user "b00000000000000000000009") noon
              (mkInputs [] true (fun _ => false)) fire_world)
    as [Hpage Hadd].
  split.
  - apply Hpage. intros d [<- | []]. discriminate.
  - apply Hadd. apply Nat.ltb_lt. reflexivity.
Defined.

(** ** The page: what is displayed *)














(** "gold", the only word with a vote, is listed first; "ice" has no
    vote, and neither has "fire" after it. *)
Lemma get_current_round_words_listing_witness :
  exists ws,
    run (get_current_round_words first_round) listing_world
    = (inr ws, listing_world) /\
    ws = [gold_doc; ice_doc; fire_doc3] /\
    Forall (fun b => Word.votes b = Some []) [fire_doc3].
Proof.
  destruct (get_current_round_words_listing first_round listing_world)
    as (ws & Hrun & _ & _ & _ & Hlast).
  exists ws. split; [exact Hrun |].
  rewrite get_current_round_words_run in Hrun. injection Hrun as <-.
  split; [reflexivity |].
  apply (Hlast [gold_doc] ice_doc [fire_doc3]); reflexivity.
Defined.

(** ** The page raises no exception of the store functions *)



Lemma calm_rerun {A : Type} (s : Screen) : calm (@halt A Rerun) s.
Proof. split; discriminate. Qed.









